(** * tiktok_uploader.upload: a shallow embedding of the upload form driver

    The module under study ([src/tiktok_uploader/upload.py]) drives a
    browser through a fixed upload form.  The browser, the file system and
    the user's completion callback are external: every call into them is
    recorded in a chronological trace together with the reply it got, and
    the replies are chosen by an oracle that sees the whole history.  The
    Python functions are state-and-exception computations over that
    trace.  Output written with [print] is not part of the modelled
    state. *)

From Stdlib Require Import List String Ascii ZArith Bool Lia.
Import ListNotations.
Local Open Scope string_scope.
Local Open Scope list_scope.
Local Open Scope Z_scope.

(** ** Python values and strings *)

Module Py.

(** The values that flow through [*args] and [**kwargs]. *)
Inductive pyval : Type :=
| VNone
| VBool (b : bool)
| VInt (n : Z)
| VStr (s : string).

Definition kwargs := list (string * pyval).

Fixpoint kw_get (k : string) (kw : kwargs) : option pyval :=
  match kw with
  | [] => None
  | (k', v) :: kw' => if String.eqb k k' then Some v else kw_get k kw'
  end.

(** [len(s)] *)
Definition len (s : string) : Z := Z.of_nat (String.length s).

(** [s.find(c)] for a one-character needle: the index of the first
    occurrence, [-1] when there is none. *)
Fixpoint find (s : string) (c : ascii) : Z :=
  match s with
  | EmptyString => -1
  | String a s' =>
      if Ascii.eqb a c then 0
      else let i := find s' c in if i <? 0 then -1 else i + 1
  end.

Fixpoint take (n : nat) (s : string) : string :=
  match n, s with
  | O, _ => EmptyString
  | S _, EmptyString => EmptyString
  | S n', String a s' => String a (take n' s')
  end.

Fixpoint drop (n : nat) (s : string) : string :=
  match n, s with
  | O, _ => s
  | S _, EmptyString => EmptyString
  | S n', String _ s' => drop n' s'
  end.

(** A slice bound as Python normalises it: a negative index counts from
    the end, and the result is clamped to [0 .. len s]. *)
Definition bound (i : Z) (s : string) : nat :=
  Z.to_nat (Z.min (len s) (if i <? 0 then Z.max 0 (len s + i) else i)).

(** [s[:i]] *)
Definition slice_to (i : Z) (s : string) : string := take (bound i s) s.

(** [s[i:]] *)
Definition slice_from (i : Z) (s : string) : string := drop (bound i s) s.

(** [s.split(c)] for a one-character separator; the result is never
    empty. *)
Fixpoint split (c : ascii) (s : string) : list string :=
  match s with
  | EmptyString => [EmptyString]
  | String a s' =>
      if Ascii.eqb a c then EmptyString :: split c s'
      else match split c s' with
           | [] => [String a EmptyString]
           | w :: ws => String a w :: ws
           end
  end.

(** [xs[0]] and [xs[-1]] on the result of [split]. *)
Definition first (xs : list string) : string := hd EmptyString xs.
Definition last (xs : list string) : string := List.last xs EmptyString.

(** [x in xs] for a list of strings *)
Definition mem (x : string) (xs : list string) : bool :=
  existsb (String.eqb x) xs.

(** Truth value of [v ^ b] where [b] is a [bool]; [None] and [str]
    operands make [^] raise [TypeError], reported as [None] here. *)
Definition xor_truthy (v : pyval) (b : bool) : option bool :=
  match v with
  | VBool a => Some (xorb a b)
  | VInt n => Some (negb (Z.lxor n (if b then 1 else 0) =? 0))
  | VNone | VStr _ => None
  end.

End Py.

(** ** Configuration *)

(** The names looked up under [config['selectors']['upload']], and the
    fixed id ['root'].  The two templates carry the name they are
    formatted with. *)
Module Sel.
Inductive selector : Type :=
| iframe
| root
| description
| mentions (name : string)
| hashtags (name : string)
| upload_video
| upload_progress
| upload_confirmation
| process_confirmation
| comment
| stitch
| duet
| post
| post_confirmation.
End Sel.

(** The timeouts handed to [WebDriverWait]. *)
Inductive timeout : Type :=
| implicit_wait
| explicit_wait
| seconds (n : Z).

(** The entries of [config] that decide control flow. *)
Record config : Type := {
  max_description_length : Z;
  supported_file_types : list string;
  quit_on_end : bool
}.

(** [os.path]: both functions are total on strings. *)
Record os_path : Type := {
  abspath : string -> string;
  exists_ : string -> bool
}.

(** ** Upload jobs *)

(** A job is a dictionary read through the keys ['path'] and
    ['description'] only.  [v_path = None] stands for a missing key or a
    [None] value ([video.get('path')] is [None] in both cases);
    [v_description = None] for a missing ['description'] key, [Some
    None] for the value [None]. *)
Record video : Type := {
  v_path : option string;
  v_description : option (option string)
}.

(** ** The outside world *)

Inductive keys : Type :=
| Text (s : string)
| ControlA
| Delete.

Inductive action : Type :=
| GetBrowser
| Authenticate
| Navigate
| FindElement (s : Sel.selector)
| SwitchToFrame
| WaitPresent (s : Sel.selector) (t : timeout)
| WaitAbsent (s : Sel.selector) (t : timeout)
| WaitValueNonEmpty (s : Sel.selector) (t : timeout)
| GetAttributeValue (s : Sel.selector)
| Clear (s : Sel.selector)
| SendKeys (s : Sel.selector) (k : keys)
| Click (s : Sel.selector)
| IsSelected (s : Sel.selector)
| Sleep
| OnComplete (v : video)
| Quit.

(** What the world answers: whether the call raised, and the boolean it
    returned when it is [is_selected]. *)
Record reply : Type := {
  raised : bool;
  selected : bool
}.

Definition event : Type := action * reply.
Definition trace : Type := list event.

(** The oracle picks the reply from the history and the call. *)
Definition oracle : Type := trace -> action -> reply.

(** ** Exceptions and the computation monad *)

Inductive exn : Type :=
| TypeError
| DescriptionTooLong
| WebDriverException
| CallbackError.

Inductive outcome (A : Type) : Type :=
| Return (a : A)
| Raise (e : exn)
| Diverge.
Arguments Return {A} a.
Arguments Raise {A} e.
Arguments Diverge {A}.

Definition M (A : Type) : Type := trace -> outcome A * trace.

Definition ret {A} (a : A) : M A := fun tr => (Return a, tr).
Definition raise {A} (e : exn) : M A := fun tr => (Raise e, tr).
Definition diverge {A} : M A := fun tr => (Diverge, tr).

Definition bind {A B} (m : M A) (k : A -> M B) : M B :=
  fun tr =>
    match m tr with
    | (Return a, tr') => k a tr'
    | (Raise e, tr') => (Raise e, tr')
    | (Diverge, tr') => (Diverge, tr')
    end.

(** [try: m  except Exception as e: h e] *)
Definition try_except {A} (m : M A) (h : exn -> M A) : M A :=
  fun tr =>
    match m tr with
    | (Return a, tr') => (Return a, tr')
    | (Raise e, tr') => h e tr'
    | (Diverge, tr') => (Diverge, tr')
    end.

Declare Scope py_scope.
Delimit Scope py_scope with py.
Notation "x <- m ;; k" := (bind m (fun x => k))
  (at level 61, m at next level, right associativity) : py_scope.
Notation "m ;; k" := (bind m (fun _ => k))
  (at level 61, right associativity) : py_scope.
Local Open Scope py_scope.

(** ** The functions of [upload.py] *)

Section Upload.

Variable cfg : config.
Variable os : os_path.
Variable env : oracle.

(** A call into the browser (or into the user's callback): the oracle's
    reply is appended to the trace, and the call raises when the reply
    says so. *)
Definition exn_of (a : action) : exn :=
  match a with
  | OnComplete _ => CallbackError
  | _ => WebDriverException
  end.

Definition call (a : action) : M reply :=
  fun tr =>
    let r := env tr a in
    (if raised r then Raise (exn_of a) else Return r, tr ++ [(a, r)]).

Definition quiet : reply := {| raised := false; selected := false |}.

(** [time.sleep(config['implicit_wait'])] *)
Definition sleep : M unit := fun tr => (Return tt, tr ++ [(Sleep, quiet)]).

Definition _go_to_upload : M unit :=
  call Navigate ;;
  call (WaitPresent Sel.iframe explicit_wait) ;;
  call SwitchToFrame ;;
  call (WaitPresent Sel.root explicit_wait) ;;
  ret tt.

Definition _clear (element : Sel.selector) : M unit :=
  call (Clear element) ;;
  call (SendKeys element ControlA) ;;
  call (SendKeys element Delete) ;;
  ret tt.

(** The [while description:] loop.  [fuel] bounds the number of
    iterations; running out of it is [Diverge]. *)
Fixpoint typing_loop (fuel : nat) (description : string) : M unit :=
  match description with
  | EmptyString => ret tt
  | _ =>
      match fuel with
      | O => diverge
      | S fuel' =>
          let nearest_mention := Py.find description "@" in
          let nearest_hash := Py.find description "#" in
          if (nearest_mention =? 0) || (nearest_hash =? 0) then
            call (SendKeys Sel.description
                    (Text (if nearest_mention =? 0 then "@" else "#"))) ;;
            sleep ;;
            let name := Py.first (Py.split " " (Py.slice_from 1 description)) in
            call (SendKeys Sel.description (Text name)) ;;
            call (WaitPresent
                    (if nearest_mention =? 0
                     then Sel.mentions name else Sel.hashtags name)
                    explicit_wait) ;;
            call (Click (if nearest_mention =? 0
                         then Sel.mentions name else Sel.hashtags name)) ;;
            typing_loop fuel' (Py.slice_from (Py.len name + 1) description)
          else
            let min_index := Z.min nearest_mention nearest_hash in
            call (SendKeys Sel.description
                    (Text (Py.slice_to min_index description))) ;;
            typing_loop fuel' (Py.slice_from min_index description)
      end
  end.

(** The body of the [try] in [_set_description]. *)
Definition typing (fuel : nat) (description : string) : M unit :=
  if Py.len description >? max_description_length cfg
  then raise DescriptionTooLong
  else typing_loop fuel description.

(** What [_set_description] does before its [try]. *)
Definition prepare_field : M unit :=
  call (FindElement Sel.description) ;;
  call (GetAttributeValue Sel.description) ;;
  call (WaitValueNonEmpty Sel.description (seconds 10)) ;;
  call (GetAttributeValue Sel.description) ;;
  _clear Sel.description ;;
  call (GetAttributeValue Sel.description) ;;
  ret tt.

(** The [except] branch of [_set_description]. *)
Definition retype (saved_description : string) : M unit :=
  call (Clear Sel.description) ;;
  call (SendKeys Sel.description (Text saved_description)) ;;
  ret tt.

Definition _set_description (fuel : nat) (description : option string)
  : M unit :=
  match description with
  | None => ret tt
  | Some description =>
      let saved_description := description in
      prepare_field ;;
      try_except (typing fuel description)
                 (fun _ => retype saved_description)
  end.

(** One pass through the [try] of [_set_video]. *)
Definition attempt (path : string) : M unit :=
  call (FindElement Sel.upload_video) ;;
  call (SendKeys Sel.upload_video (Text path)) ;;
  call (WaitAbsent Sel.upload_progress explicit_wait) ;;
  call (WaitPresent Sel.upload_confirmation implicit_wait) ;;
  call (WaitPresent Sel.process_confirmation explicit_wait) ;;
  ret tt.

(** [for _ in range(n)]: a successful attempt returns from the
    function, a failed one goes on with the next. *)
Fixpoint retry (n : nat) (path : string) : M unit :=
  match n with
  | O => ret tt
  | S n' => try_except (attempt path) (fun _ => retry n' path)
  end.

(** [_set_video(driver, *args, path='', num_retries=1, **kwargs)]:
    [path] and [num_retries] are keyword-only. *)
Definition _set_video (args : list Py.pyval) (path : string)
  (num_retries : Z) : M unit :=
  retry (Z.to_nat num_retries) path.

Definition _post_video : M unit :=
  call (FindElement Sel.post) ;;
  call (Click Sel.post) ;;
  call (WaitPresent Sel.post_confirmation explicit_wait) ;;
  ret tt.

(** [if flag ^ box.is_selected(): box.click()] *)
Definition reconcile (flag : Py.pyval) (box : Sel.selector) : M unit :=
  r <- call (IsSelected box) ;;
  match Py.xor_truthy flag (selected r) with
  | None => raise TypeError
  | Some true => call (Click box) ;; ret tt
  | Some false => ret tt
  end.

Definition _set_interactivity (comment stitch duet : Py.pyval) : M unit :=
  call (FindElement Sel.comment) ;;
  call (FindElement Sel.stitch) ;;
  call (FindElement Sel.duet) ;;
  reconcile comment Sel.comment ;;
  reconcile stitch Sel.stitch ;;
  reconcile duet Sel.duet.

(** *** Argument binding at the call sites of [complete_upload_form] *)

(** [_go_to_upload(driver, *args, **kwargs)]: the callee takes [driver]
    and nothing else. *)
Definition call_go_to_upload (args : list Py.pyval) (kw : Py.kwargs)
  : M unit :=
  match args, kw with
  | [], [] => _go_to_upload
  | _, _ => raise TypeError
  end.

(** A parameter that can be given by position or by keyword; giving it
    twice is a [TypeError] ([None]). *)
Definition bind_param (name : string) (positional : option Py.pyval)
  (kw : Py.kwargs) (default : Py.pyval) : option Py.pyval :=
  match positional, Py.kw_get name kw with
  | Some _, Some _ => None
  | Some v, None => Some v
  | None, Some v => Some v
  | None, None => Some default
  end.

(** [_set_interactivity(driver, *args, **kwargs)] against
    [(driver, comment=True, stitch=True, duet=True, *args, **kwargs)]. *)
Definition call_set_interactivity (args : list Py.pyval) (kw : Py.kwargs)
  : M unit :=
  match Py.kw_get "driver" kw,
        bind_param "comment" (nth_error args 0) kw (Py.VBool true),
        bind_param "stitch" (nth_error args 1) kw (Py.VBool true),
        bind_param "duet" (nth_error args 2) kw (Py.VBool true) with
  | None, Some comment, Some stitch, Some duet =>
      _set_interactivity comment stitch duet
  | _, _, _, _ => raise TypeError
  end.

Definition complete_upload_form (fuel : nat) (path : string)
  (description : option string) (args : list Py.pyval) (kw : Py.kwargs)
  : M unit :=
  call_go_to_upload args kw ;;
  (* _set_video(driver, path): the positional [path] lands in [*args] *)
  _set_video [Py.VStr path] "" 1 ;;
  call_set_interactivity args kw ;;
  _set_description fuel description ;;
  _post_video.

Definition _check_valid_path (path : string) : bool :=
  exists_ os path
  && Py.mem (Py.last (Py.split "." path)) (supported_file_types cfg).

(** The first [try] of the loop in [upload_videos]: [abspath(None)]
    raises, which is reported as [None]. *)
Definition resolve (v : video) : option (string * option string) :=
  match v_path v with
  | None => None
  | Some p =>
      Some (abspath os p,
            match v_description v with
            | None => Some EmptyString
            | Some d => d
            end)
  end.

(** [for video in videos: ...], threading the [failed] list. *)
Fixpoint upload_loop (fuel : nat) (on_complete : bool) (num_retires : Z)
  (args : list Py.pyval) (kw : Py.kwargs)
  (videos : list video) (failed : list video) : M (list video) :=
  match videos with
  | [] => ret failed
  | video :: videos' =>
      match resolve video with
      | None =>
          upload_loop fuel on_complete num_retires args kw videos'
                      (failed ++ [video])
      | Some (path, description) =>
          if negb (_check_valid_path path) then
            upload_loop fuel on_complete num_retires args kw videos'
                        (failed ++ [video])
          else
            failed' <-
              try_except
                (complete_upload_form fuel path description args
                   (("num_retires", Py.VInt num_retires) :: kw) ;;
                 ret failed)
                (fun _ => ret (failed ++ [video])) ;;
            (if on_complete then call (OnComplete video) ;; ret tt
             else ret tt) ;;
            upload_loop fuel on_complete num_retires args kw videos' failed'
      end
  end.

(** [upload_videos]: [browser_agent] and [on_complete] say whether the
    caller supplied one.  The result is [None] for the bare [return]. *)
Definition upload_videos (fuel : nat) (videos : list video)
  (browser_agent on_complete : bool) (num_retires : Z)
  (args : list Py.pyval) (kw : Py.kwargs) : M (option (list video)) :=
  match videos with
  | [] => ret None
  | _ =>
      (if browser_agent then ret tt else call GetBrowser ;; ret tt) ;;
      call Authenticate ;;
      failed <- upload_loop fuel on_complete num_retires args kw videos [] ;;
      (if quit_on_end cfg then call Quit ;; ret tt else ret tt) ;;
      ret (Some failed)
  end.

End Upload.

(** [upload_video], whose parameters are [*args, filename=None,
    description='', username='', password='', cookies='', **kwargs].
    [AuthBackend] stands for the
    constructor call [AuthBackend(username=..., password=...,
    cookies=...)] of another module.  The entries of [**kwargs] that name
    a parameter of [upload_videos] are given by what they decide there
    ([browser_agent], [on_complete], [num_retires]); [kw] holds the other
    entries.  A positional argument, or a [videos] or [auth] entry, meets
    the keywords [videos=] and [auth=] of the call: [TypeError]. *)
Definition upload_video (cfg : config) (os : os_path) (env : oracle)
  (AuthBackend : M unit) (fuel : nat) (args : list Py.pyval)
  (filename : option string) (description : option string)
  (browser_agent on_complete : bool) (num_retires : Z) (kw : Py.kwargs)
  : M (option (list video)) :=
  AuthBackend ;;
  match args, Py.kw_get "videos" kw, Py.kw_get "auth" kw with
  | [], None, None =>
      upload_videos cfg os env fuel
        [{| v_path := filename; v_description := Some description |}]
        browser_agent on_complete num_retires [] kw
  | _, _, _ => raise TypeError
  end.

(** ** Concrete worlds, used to run the functions *)

Module Demo.

(** Nothing raises and every box is unchecked. *)
Definition smooth : oracle := fun _ _ => quiet.

(** The upload confirmation never shows up; everything else works. *)
Definition unconfirmed : oracle :=
  fun _ a =>
    match a with
    | WaitPresent Sel.upload_confirmation _ =>
        {| raised := true; selected := false |}
    | _ => quiet
    end.


(** The completion callback raises; everything else works. *)
Definition touchy : oracle :=
  fun _ a =>
    match a with
    | OnComplete _ => {| raised := true; selected := false |}
    | _ => quiet
    end.

(** A suggestion for a mention or a hashtag never shows up; everything
    else works. *)
Definition unsuggested : oracle :=
  fun _ a =>
    match a with
    | WaitPresent (Sel.mentions _) _ | WaitPresent (Sel.hashtags _) _ =>
        {| raised := true; selected := false |}
    | _ => quiet
    end.

(** The duet box can not be found; everything else works. *)
Definition duetless : oracle :=
  fun _ a =>
    match a with
    | FindElement Sel.duet => {| raised := true; selected := false |}
    | _ => quiet
    end.

Definition cfg : config :=
  {| max_description_length := 10;
     supported_file_types := ["mp4"; "mov"; "webm"];
     quit_on_end := true |}.

(** Paths are resolved against [/videos]; one file exists there. *)
Definition os : os_path :=
  {| abspath := fun p =>
       match p with
       | String "/" _ => p
       | _ => ("/videos/" ++ p)%string
       end;
     exists_ := fun p => String.eqb p "/videos/clip.mp4" |}.

Definition clip : video :=
  {| v_path := Some "clip.mp4"; v_description := Some (Some "hi") |}.

Definition missing : video :=
  {| v_path := Some "missing.mp4"; v_description := None |}.

Definition pathless : video :=
  {| v_path := None; v_description := Some (Some "hi") |}.

End Demo.

(** ** Reading a trace *)

Definition selector_eq_dec (a b : Sel.selector) : {a = b} + {a <> b}.
Proof. decide equality; apply string_dec. Defined.

Definition actions (tr : trace) : list action := map fst tr.

(** The keys sent to one element, in order. *)
Fixpoint typed (box : Sel.selector) (tr : trace) : list keys :=
  match tr with
  | [] => []
  | (SendKeys s k, _) :: tr' =>
      if selector_eq_dec s box then k :: typed box tr' else typed box tr'
  | _ :: tr' => typed box tr'
  end.

(** The text of the keys sent, concatenated. *)
Fixpoint text_of (ks : list keys) : string :=
  match ks with
  | [] => EmptyString
  | Text s :: ks' => (s ++ text_of ks')%string
  | _ :: ks' => text_of ks'
  end.



(** The jobs the completion callback was called with, in order. *)
Fixpoint callbacks (tr : trace) : list video :=
  match tr with
  | [] => []
  | (OnComplete v, _) :: tr' => v :: callbacks tr'
  | _ :: tr' => callbacks tr'
  end.

(** The attempts of the file-attachment stage: each one starts by
    locating the file input. *)
Fixpoint attempts (tr : trace) : nat :=
  match tr with
  | [] => O
  | (FindElement Sel.upload_video, _) :: tr' => S (attempts tr')
  | _ :: tr' => attempts tr'
  end.


(** A callback invocation that raised. *)
Definition angry (e : event) : bool :=
  match e with
  | (OnComplete _, r) => raised r
  | _ => false
  end.

(** The calls [complete_upload_form] can make when [_set_video] runs
    with the path [p]: nothing of the batch level, and only [p] goes to
    the file input. *)
Definition form_action (p : string) (a : action) : bool :=
  match a with
  | GetBrowser | Authenticate | OnComplete _ | Quit => false
  | SendKeys Sel.upload_video (Text s) => String.eqb s p
  | SendKeys Sel.upload_video _ => false
  | _ => true
  end.

(** [l1] is [l2] with some elements left out. *)
Inductive subseq {A : Type} : list A -> list A -> Prop :=
| subseq_nil : subseq [] []
| subseq_skip x l1 l2 : subseq l1 l2 -> subseq l1 (x :: l2)
| subseq_keep x l1 l2 : subseq l1 l2 -> subseq (x :: l1) (x :: l2).

(** A job that gets past both checks of the batch loop. *)
Definition accepted (cfg : config) (os : os_path) (v : video) : bool :=
  match resolve os v with
  | None => false
  | Some (p, _) => _check_valid_path cfg os p
  end.

(** A call [complete_upload_form] can make, with [p] the path its
    [_set_video] runs with; an event that is not a raising callback. *)
Definition form (p : string) (a : action) : Prop := form_action p a = true.
Definition calm (e : event) : Prop := angry e = false.

(** The calls [upload_videos] makes before its loop. *)
Definition opening (a : action) : Prop :=
  match a with
  | GetBrowser | Authenticate => True
  | _ => False
  end.

(** [m] only appends to the trace, and only calls satisfying [P]. *)
Definition emits {A : Type} (P : action -> Prop) (m : M A) : Prop :=
  forall tr out tr',
    m tr = (out, tr') ->
    exists new, tr' = tr ++ new /\ Forall P (actions new).

(** What a run of the batch loop over [videos] leaves behind: [new] are
    the events it added, [out] its outcome, [failed] the list it started
    from. *)
Definition loop_post (cfg : config) (os : os_path) (on_complete : bool)
  (videos failed : list video) (out : outcome (list video)) (new : trace)
  : Prop :=
  ~ In Quit (actions new)
  /\ (forall failed', out = Return failed' ->
        (exists extra, failed' = failed ++ extra /\ subseq extra videos)
        /\ callbacks new
           = if on_complete then filter (accepted cfg os) videos else [])
  /\ (Forall calm new
      \/ exists pre v r,
           new = pre ++ [(OnComplete v, r)]
           /\ Forall calm pre /\ raised r = true
           /\ out = Raise CallbackError).

(** The part of the program a call belongs to. *)
Inductive stage : Type :=
| Session
| Navigation
| Attachment
| Interactivity
| Description
| Submission
| Callback.

Definition stage_of_selector (s : Sel.selector) : stage :=
  match s with
  | Sel.iframe | Sel.root => Navigation
  | Sel.description | Sel.mentions _ | Sel.hashtags _ => Description
  | Sel.upload_video | Sel.upload_progress | Sel.upload_confirmation
  | Sel.process_confirmation => Attachment
  | Sel.comment | Sel.stitch | Sel.duet => Interactivity
  | Sel.post | Sel.post_confirmation => Submission
  end.

Definition stage_of (a : action) : stage :=
  match a with
  | GetBrowser | Authenticate | Quit => Session
  | OnComplete _ => Callback
  | Navigate | SwitchToFrame => Navigation
  | Sleep => Description
  | FindElement s | WaitPresent s _ | WaitAbsent s _
  | WaitValueNonEmpty s _ | GetAttributeValue s | Clear s | SendKeys s _
  | Click s | IsSelected s => stage_of_selector s
  end.

(** The place of a stage in [complete_upload_form]. *)
Definition rank (g : stage) : nat :=
  match g with
  | Session => 0
  | Navigation => 1
  | Attachment => 2
  | Interactivity => 3
  | Description => 4
  | Submission => 5
  | Callback => 6
  end.

(** [l] never goes down, and starts at [lo] or above. *)
Fixpoint ascending (lo : nat) (l : list nat) : Prop :=
  match l with
  | [] => True
  | x :: l' => (lo <= x)%nat /\ ascending x l'
  end.

(** The stages a trace goes through, as ranks. *)
Definition ranks (tr : trace) : list nat :=
  map (fun e => rank (stage_of (fst e))) tr.

Definition is_clear (box : Sel.selector) (a : action) : bool :=
  match a with
  | Clear s => if selector_eq_dec s box then true else false
  | _ => false
  end.

(** What happened after the last [clear()] of [box]; the whole trace
    when it was never cleared. *)
Fixpoint after_last_clear (box : Sel.selector) (tr : trace) : trace :=
  match tr with
  | [] => []
  | e :: tr' =>
      if existsb (is_clear box) (actions tr') then after_last_clear box tr'
      else if is_clear box (fst e) then tr'
      else e :: tr'
  end.

(** The last character of [s] is [@] or [#]. *)
Fixpoint ends_in_trigger (s : string) : bool :=
  match s with
  | EmptyString => false
  | String a EmptyString => Ascii.eqb a "@" || Ascii.eqb a "#"
  | String _ s' => ends_in_trigger s'
  end.

(** An oracle under which no call raises. *)
Definition obliging (env : oracle) : Prop :=
  forall tr a, raised (env tr a) = false.

(** The calls [upload_videos] makes on a non-empty job list when none of
    them raises: the session is set up, the callback is called for the
    accepted jobs, the session is quit. *)
Definition callback_script (cfg : config) (os : os_path) (oc : bool)
  (videos : list video) : list action :=
  map OnComplete (if oc then filter (accepted cfg os) videos else []).

Definition script (cfg : config) (os : os_path) (ba oc : bool)
  (videos : list video) : list action :=
  (if ba then [] else [GetBrowser]) ++ [Authenticate]
  ++ callback_script cfg os oc videos
  ++ (if quit_on_end cfg then [Quit] else []).

(** A call that returned. *)
Definition returned (e : event) : Prop := raised (snd e) = false.

(** [new] follows the list of calls [todo] up to a call that raised. *)
Definition stopped_in (todo : list action) (new : trace) (e : exn) : Prop :=
  exists pre a r rest,
    new = pre ++ [(a, r)] /\ raised r = true /\ e = exn_of a
    /\ Forall returned pre /\ todo = actions new ++ rest.

(** [m] works through the calls [todo] in order and stops at the first
    one that raises; it returns, with a value satisfying [ok], exactly
    when all of them returned. *)
Definition follows {A : Type} (todo : list action) (m : M A)
  (ok : A -> Prop) : Prop :=
  forall tr out tr',
    m tr = (out, tr') ->
    exists new,
      tr' = tr ++ new
      /\ ((exists a, out = Return a /\ ok a
                     /\ actions new = todo /\ Forall returned new)
          \/ (exists e, out = Raise e /\ stopped_in todo new e)).

(** [m] only makes calls of the stage [g]. *)
Definition within {A : Type} (g : stage) (m : M A) : Prop :=
  emits (fun a => stage_of a = g) m.

(** The calls of [m] go through the stages in their order, starting at
    the place [lo] or later. *)
Definition staged {A : Type} (lo : nat) (m : M A) : Prop :=
  forall tr out tr',
    m tr = (out, tr') ->
    exists new, tr' = tr ++ new /\ ascending lo (ranks new).


(** ** Theorems *)

(** *** The monad only grows the trace *)

Section Emits.

Context {A B : Type} (P : action -> Prop).

Lemma emits_ret (a : A) : emits P (ret a).
Proof.
  intros tr out tr' H. inversion H; subst.
  exists []. rewrite app_nil_r. split; [reflexivity | constructor].
Qed.

Lemma emits_raise (e : exn) : emits P (@raise A e).
Proof.
  intros tr out tr' H. inversion H; subst.
  exists []. rewrite app_nil_r. split; [reflexivity | constructor].
Qed.

Lemma emits_diverge : emits P (@diverge A).
Proof.
  intros tr out tr' H. inversion H; subst.
  exists []. rewrite app_nil_r. split; [reflexivity | constructor].
Qed.

Lemma emits_bind (m : M A) (k : A -> M B) :
  emits P m -> (forall a, emits P (k a)) -> emits P (bind m k).
Proof.
  intros Hm Hk tr out tr' H. unfold bind in H.
  destruct (m tr) as [o tr1] eqn:E.
  destruct (Hm _ _ _ E) as (n1 & -> & F1).
  destruct o as [a | e |].
  - destruct (Hk a _ _ _ H) as (n2 & -> & F2).
    exists (n1 ++ n2). rewrite app_assoc. split; [reflexivity |].
    unfold actions in *. rewrite map_app. now apply Forall_app.
  - inversion H; subst. now exists n1.
  - inversion H; subst. now exists n1.
Qed.

Lemma emits_try (m : M A) (h : exn -> M A) :
  emits P m -> (forall e, emits P (h e)) -> emits P (try_except m h).
Proof.
  intros Hm Hh tr out tr' H. unfold try_except in H.
  destruct (m tr) as [o tr1] eqn:E.
  destruct (Hm _ _ _ E) as (n1 & -> & F1).
  destruct o as [a | e |].
  - inversion H; subst. now exists n1.
  - destruct (Hh e _ _ _ H) as (n2 & -> & F2).
    exists (n1 ++ n2). rewrite app_assoc. split; [reflexivity |].
    unfold actions in *. rewrite map_app. now apply Forall_app.
  - inversion H; subst. now exists n1.
Qed.

End Emits.

Lemma emits_call (P : action -> Prop) (env : oracle) (a : action) :
  P a -> emits P (call env a).
Proof.
  intros Pa tr out tr' H. unfold call in H. inversion H; subst.
  exists [(a, env tr a)]. split; [reflexivity |].
  constructor; [exact Pa | constructor].
Qed.

Lemma emits_sleep (P : action -> Prop) : P Sleep -> emits P sleep.
Proof.
  intros Ps tr out tr' H. unfold sleep in H. inversion H; subst.
  exists [(Sleep, quiet)]. split; [reflexivity |].
  constructor; [exact Ps | constructor].
Qed.

Lemma emits_weaken {A} (P Q : action -> Prop) (m : M A) :
  (forall a, P a -> Q a) -> emits P m -> emits Q m.
Proof.
  intros PQ Hm tr out tr' H. destruct (Hm _ _ _ H) as (new & -> & F).
  exists new. split; [reflexivity |].
  eapply Forall_impl; [| exact F]. exact PQ.
Qed.

(** *** What the form-filling functions can call *)

Ltac emit :=
  repeat first
    [ apply emits_ret | apply emits_raise | apply emits_diverge
    | apply emits_sleep; reflexivity
    | apply emits_call; reflexivity
    | apply emits_bind; [| intros ? ]
    | apply emits_try; [| intros ? ] ].

Section FormActions.

Variable cfg : config.
Variable env : oracle.
Variable p : string.

Lemma _go_to_upload_emits : emits (form p) (_go_to_upload env).
Proof. unfold _go_to_upload. emit. Qed.

Lemma _clear_emits : emits (form p) (_clear env Sel.description).
Proof. unfold _clear. emit. Qed.

Lemma typing_loop_emits fuel description :
  emits (form p) (typing_loop env fuel description).
Proof.
  revert description. induction fuel as [| fuel IH]; intros [| c s];
    simpl; try solve [emit].
  destruct (_ || _).
  - emit. apply IH.
  - emit. apply IH.
Qed.

Lemma typing_emits fuel description :
  emits (form p) (typing cfg env fuel description).
Proof.
  unfold typing. destruct (_ >? _); [emit | apply typing_loop_emits].
Qed.

Lemma prepare_field_emits : emits (form p) (prepare_field env).
Proof. unfold prepare_field. emit. Qed.

Lemma retype_emits saved : emits (form p) (retype env saved).
Proof. unfold retype. emit. Qed.

Lemma _set_description_emits fuel description :
  emits (form p) (_set_description cfg env fuel description).
Proof.
  unfold _set_description. destruct description; emit;
    auto using prepare_field_emits, typing_emits, retype_emits.
Qed.

Lemma attempt_emits : emits (form p) (attempt env p).
Proof.
  unfold attempt. emit.
  apply emits_call. unfold form. simpl. apply String.eqb_refl.
Qed.

Lemma retry_emits n : emits (form p) (retry env n p).
Proof.
  induction n as [| n IH]; simpl.
  - apply emits_ret.
  - apply emits_try; [apply attempt_emits | intros _; exact IH].
Qed.

Lemma _post_video_emits : emits (form p) (_post_video env).
Proof. unfold _post_video. emit. Qed.

Lemma reconcile_emits flag box : emits (form p) (reconcile env flag box).
Proof.
  unfold reconcile. apply emits_bind; [emit | intros r].
  destruct (Py.xor_truthy _ _) as [[|]|]; emit.
Qed.

Lemma _set_interactivity_emits c s d :
  emits (form p) (_set_interactivity env c s d).
Proof.
  unfold _set_interactivity.
  do 5 (apply emits_bind;
        [first [apply emits_call; reflexivity | apply reconcile_emits]
        | intros ?]).
  apply reconcile_emits.
Qed.

End FormActions.

Lemma complete_upload_form_emits cfg env fuel path description args kw :
  emits (form "")
        (complete_upload_form cfg env fuel path description args kw).
Proof.
  unfold complete_upload_form.
  apply emits_bind; [| intros _; apply emits_bind; [| intros _;
    apply emits_bind; [| intros _; apply emits_bind; [| intros _]]]].
  - unfold call_go_to_upload. destruct args, kw; emit.
  - apply retry_emits.
  - unfold call_set_interactivity.
    repeat match goal with
           | |- context [match ?x with _ => _ end] => destruct x
           end;
      first [apply emits_raise | apply _set_interactivity_emits].
  - apply _set_description_emits.
  - apply _post_video_emits.
Qed.

(** *** Reading a trace piecewise *)

Lemma callbacks_app (a b : trace) :
  callbacks (a ++ b) = callbacks a ++ callbacks b.
Proof.
  induction a as [| [act r] a IH]; [reflexivity |].
  destruct act; simpl; try assumption. now rewrite IH.
Qed.

Lemma typed_app box (a b : trace) :
  typed box (a ++ b) = typed box a ++ typed box b.
Proof.
  induction a as [| [act r] a IH]; [reflexivity |].
  destruct act; simpl; try assumption.
  destruct (selector_eq_dec s box); simpl; now rewrite IH.
Qed.

Lemma attempts_app (a b : trace) :
  attempts (a ++ b) = (attempts a + attempts b)%nat.
Proof.
  induction a as [| [act r] a IH]; [reflexivity |].
  destruct act; simpl; try assumption.
  destruct s; simpl; now rewrite ?IH.
Qed.

Lemma text_of_app (a b : list keys) :
  text_of (a ++ b) = (text_of a ++ text_of b)%string.
Proof.
  induction a as [| k a IH]; [reflexivity |].
  destruct k; simpl; try assumption.
  rewrite IH. clear IH. induction s; simpl; congruence.
Qed.

(** The form-filling calls never involve the callback or the end of the
    session. *)
Lemma form_actions_quiet p (new : trace) :
  Forall (form p) (actions new) ->
  callbacks new = [] /\ Forall calm new /\ ~ In Quit (actions new).
Proof.
  induction new as [| [a r] new IH]; simpl; intros F.
  - repeat split; [constructor | tauto].
  - inversion F as [| ? ? Fa Fr]; subst.
    destruct (IH Fr) as (C & Q & NQ).
    repeat split.
    + destruct a; simpl in Fa; try discriminate; assumption.
    + constructor; [| assumption].
      destruct a; simpl in Fa; try discriminate; reflexivity.
    + intros [E | I]; [subst a; discriminate | contradiction].
Qed.

Lemma form_actions_file_input p (new : trace) :
  Forall (form p) (actions new) ->
  Forall (eq (Text p)) (typed Sel.upload_video new).
Proof.
  induction new as [| [a r] new IH]; simpl; intros F; [constructor |].
  inversion F as [| ? ? Fa Fr]; subst.
  destruct a; auto.
  destruct (selector_eq_dec s Sel.upload_video) as [-> |]; auto.
  constructor; auto.
  simpl in Fa. destruct k; try discriminate.
  apply String.eqb_eq in Fa. now subst.
Qed.

Lemma subseq_refl {A} (l : list A) : subseq l l.
Proof. induction l; constructor; assumption. Qed.

Lemma subseq_length {A} (l1 l2 : list A) :
  subseq l1 l2 -> (List.length l1 <= List.length l2)%nat.
Proof. induction 1; simpl; lia. Qed.

Lemma subseq_In {A} (l1 l2 : list A) :
  subseq l1 l2 -> forall x, In x l1 -> In x l2.
Proof.
  induction 1; simpl; intros y Hy; auto.
  destruct Hy; auto.
Qed.

Lemma subseq_app {A} (a b c d : list A) :
  subseq a b -> subseq c d -> subseq (a ++ c) (b ++ d).
Proof.
  induction 1; simpl; intros H'.
  - assumption.
  - apply subseq_skip; auto.
  - apply subseq_keep; auto.
Qed.

(** *** The batch loop *)

(** The [if on_complete: on_complete(video)] step. *)
Lemma callback_step env (oc : bool) v tr o t :
  (if oc then call env (OnComplete v) ;; ret tt else ret tt) tr = (o, t) ->
  exists e,
    t = tr ++ e
    /\ ((o = Return tt /\ Forall calm e /\ ~ In Quit (actions e)
         /\ callbacks e = if oc then [v] else [])
        \/ (o = Raise CallbackError
            /\ exists r, e = [(OnComplete v, r)] /\ raised r = true)).
Proof.
  destruct oc; intros H.
  - unfold bind, call in H.
    destruct (raised (env tr (OnComplete v))) eqn:Rz; inversion H; subst.
    + eexists. split; [reflexivity |]. right. split; [reflexivity |].
      eexists. split; [reflexivity | exact Rz].
    + eexists. split; [reflexivity |]. left.
      split; [reflexivity | split; [| split; [| reflexivity]]].
      * constructor; [exact Rz | constructor].
      * simpl. intros [E | F]; [discriminate | exact F].
  - inversion H; subst. exists []. rewrite app_nil_r.
    split; [reflexivity |]. left.
    split; [reflexivity | split; [constructor | split; [| reflexivity]]].
    simpl. tauto.
Qed.

Section Batch.

Variable cfg : config.
Variable os : os_path.
Variable env : oracle.
Variable fuel : nat.
Variable on_complete : bool.
Variable num_retires : Z.
Variable args : list Py.pyval.
Variable kw : Py.kwargs.

Lemma loop_post_skip v vs failed out new :
  accepted cfg os v = false ->
  loop_post cfg os on_complete vs (failed ++ [v]) out new ->
  loop_post cfg os on_complete (v :: vs) failed out new.
Proof.
  intros Hacc (NQ & R & Q). split; [assumption | split; [| assumption]].
  intros failed' E. destruct (R _ E) as ((extra & -> & Sub) & C). split.
  - exists (v :: extra). rewrite <- app_assoc.
    split; [reflexivity | now constructor].
  - simpl. now rewrite Hacc.
Qed.

(** The job [v] went through the form (events [n1]) and the callback,
    if there is one, returned (events [e]); the loop went on from
    [failed ++ extra0]. *)
Lemma loop_post_keep v vs failed extra0 out n1 e new :
  accepted cfg os v = true ->
  subseq extra0 [v] ->
  Forall (form "") (actions n1) ->
  Forall calm e -> ~ In Quit (actions e) ->
  callbacks e = (if on_complete then [v] else []) ->
  loop_post cfg os on_complete vs (failed ++ extra0) out new ->
  loop_post cfg os on_complete (v :: vs) failed out (n1 ++ e ++ new).
Proof.
  intros Hacc Sub0 F1 Ce NQe Cbe (NQ & R & Q).
  destruct (form_actions_quiet _ _ F1) as (C1 & Q1 & NQ1).
  split; [| split].
  - unfold actions in *. rewrite !map_app, !in_app_iff. tauto.
  - intros failed' E. destruct (R _ E) as ((extra & -> & Sub) & C). split.
    + exists (extra0 ++ extra). rewrite app_assoc.
      split; [reflexivity |]. now apply (subseq_app extra0 [v]).
    + rewrite !callbacks_app, C1, Cbe, C. simpl. rewrite Hacc.
      now destruct on_complete.
  - destruct Q as [Q | (pre & w & r & -> & Qp & Rr & ->)].
    + left. now rewrite !Forall_app.
    + right. exists (n1 ++ e ++ pre), w, r.
      rewrite <- !app_assoc. repeat split; auto.
      now rewrite !Forall_app.
Qed.

Lemma upload_loop_inv videos : forall failed tr out tr',
  upload_loop cfg os env fuel on_complete num_retires args kw
    videos failed tr = (out, tr') ->
  exists new,
    tr' = tr ++ new /\ loop_post cfg os on_complete videos failed out new.
Proof.
  induction videos as [| v vs IH]; intros failed tr out tr' H.
  - inversion H; subst. exists []. rewrite app_nil_r.
    split; [reflexivity | split; [simpl; tauto | split]].
    + intros failed' E. inversion E; subst. split.
      * exists []. rewrite app_nil_r. split; [reflexivity | constructor].
      * now destruct on_complete.
    + left. constructor.
  - simpl in H.
    assert (Skip : accepted cfg os v = false ->
                   upload_loop cfg os env fuel on_complete num_retires
                     args kw vs (failed ++ [v]) tr = (out, tr') ->
                   exists new, tr' = tr ++ new
                     /\ loop_post cfg os on_complete (v :: vs) failed out new).
    { intros Hacc Ho. destruct (IH _ _ _ _ Ho) as (new & -> & P).
      exists new. split; [reflexivity | now apply loop_post_skip]. }
    assert (Acc := eq_refl (accepted cfg os v)).
    unfold accepted at 2 in Acc. unfold accepted in Skip.
    destruct (resolve os v) as [[path d] |] eqn:Rv; [| now apply Skip].
    destruct (_check_valid_path cfg os path) eqn:V; simpl in H;
      [| now apply Skip].
    clear Skip. unfold bind at 1, try_except, bind at 1 in H.
    destruct (complete_upload_form _ _ _ _ _ _ _ tr) as [o1 tr1] eqn:E.
    destruct (complete_upload_form_emits _ _ _ _ _ _ _ _ _ _ E)
      as (n1 & -> & F1).
    assert (Cont : forall extra0, subseq extra0 [v] ->
              ((if on_complete then call env (OnComplete v) ;; ret tt
                else ret tt) ;;
               upload_loop cfg os env fuel on_complete num_retires args kw
                 vs (failed ++ extra0)) (tr ++ n1) = (out, tr') ->
              exists new, tr' = tr ++ new
                /\ loop_post cfg os on_complete (v :: vs) failed out new).
    { intros extra0 Sub0 K. unfold bind at 1 in K.
      match type of K with
      | context [let (_, _) := ?m in _] => destruct m as [o2 tr2] eqn:E2
      end.
      destruct (callback_step _ _ _ _ _ _ E2)
        as (e & -> & [(-> & Ce & NQe & Cbe) | (-> & r & -> & Rr)]).
      - destruct (IH _ _ _ _ K) as (new & -> & P).
        exists (n1 ++ e ++ new). rewrite <- !app_assoc.
        split; [reflexivity |]. now apply loop_post_keep with extra0.
      - inversion K; subst. exists (n1 ++ [(OnComplete v, r)]).
        rewrite <- app_assoc. split; [reflexivity |].
        destruct (form_actions_quiet _ _ F1) as (C1 & Q1 & NQ1).
        split; [| split].
        + unfold actions in *. rewrite map_app, in_app_iff. simpl.
          intros [I | [I | []]]; [contradiction | discriminate].
        + intros failed' Ef. discriminate.
        + right. exists n1, v, r. auto. }
    destruct o1 as [[] | e1 |]; simpl in H.
    + apply (Cont []); [apply subseq_skip, subseq_nil |].
      now rewrite app_nil_r.
    + apply (Cont [v]); [apply subseq_refl | exact H].
    + inversion H; subst. exists n1. split; [reflexivity |].
      destruct (form_actions_quiet _ _ F1) as (C1 & Q1 & NQ1).
      split; [assumption | split; [intros ? Ef; discriminate | now left]].
Qed.

End Batch.

(** A raising callback can only be the last event of a trace whose
    earlier events are calm. *)
Lemma angry_is_last (pre pre' post : trace) (e x : event) :
  Forall calm pre -> angry x = true ->
  pre ++ [e] = pre' ++ x :: post -> post = [].
Proof.
  revert pre'. induction pre as [| y pre IH]; intros pre' Q Ax E.
  - destruct pre' as [| z pre']; simpl in E.
    + now inversion E.
    + inversion E as [[E1 E2]]. destruct pre'; discriminate.
  - inversion Q as [| ? ? Qy Qp]; subst.
    destruct pre' as [| z pre']; simpl in E; inversion E; subst.
    + unfold calm in Qy. congruence.
    + eapply IH; eauto.
Qed.

Lemma angry_not_calm (new pre post : trace) (x : event) :
  Forall calm new -> angry x = true -> new <> pre ++ x :: post.
Proof.
  intros Q Ax ->. apply Forall_app in Q as [_ Q].
  inversion Q as [| ? ? Qx _]; subst. unfold calm in Qx. congruence.
Qed.

Lemma opening_quiet (e : trace) :
  Forall opening (actions e) ->
  callbacks e = [] /\ Forall calm e /\ ~ In Quit (actions e).
Proof.
  induction e as [| [a r] e IH]; simpl; intros F.
  - split; [reflexivity | split; [constructor | tauto]].
  - inversion F as [| ? ? Fa Fr]; subst.
    destruct (IH Fr) as (C & Q & NQ).
    destruct a; simpl in Fa; try contradiction;
      (split; [assumption | split; [now constructor |]]);
      intros [E | I]; try discriminate; contradiction.
Qed.

Lemma closing_quiet (e : trace) :
  Forall (eq Quit) (actions e) -> callbacks e = [] /\ Forall calm e.
Proof.
  induction e as [| [a r] e IH]; simpl; intros F.
  - split; [reflexivity | constructor].
  - inversion F as [| ? ? Fa Fr]; subst.
    destruct (IH Fr) as (C & Q). split; [assumption | now constructor].
Qed.

(** *** [upload_videos] as a whole *)

Section Videos.

Variable cfg : config.
Variable os : os_path.
Variable env : oracle.

(** A run of [upload_videos] either stays calm, and then what it
    returns and whom it called back is determined by the jobs, or it
    ends in a raising callback. *)
Lemma upload_videos_inv fuel videos ba oc n args kw tr out tr' :
  upload_videos cfg os env fuel videos ba oc n args kw tr = (out, tr') ->
  exists new,
    tr' = tr ++ new
    /\ ((Forall calm new
         /\ forall failed, out = Return (Some failed) ->
              subseq failed videos
              /\ callbacks new
                 = if oc then filter (accepted cfg os) videos else [])
        \/ (exists pre v r,
              new = pre ++ [(OnComplete v, r)]
              /\ Forall calm pre /\ raised r = true
              /\ out = Raise CallbackError
              /\ ~ In Quit (actions new))).
Proof.
  intros H.
  destruct videos as [| v0 vs0].
  { inversion H; subst. exists []. rewrite app_nil_r.
    split; [reflexivity |]. left. split; [constructor |].
    intros failed E. discriminate. }
  remember (v0 :: vs0) as videos eqn:Ev.
  assert (Hb : upload_videos cfg os env fuel videos ba oc n args kw
               = ((if ba then ret tt else call env GetBrowser ;; ret tt) ;;
                  call env Authenticate ;;
                  failed <- upload_loop cfg os env fuel oc n args kw videos [] ;;
                  (if quit_on_end cfg then call env Quit ;; ret tt
                   else ret tt) ;;
                  ret (Some failed))).
  { subst videos. reflexivity. }
  rewrite Hb in H. clear Hb Ev v0 vs0.
  unfold bind at 1 in H.
  match type of H with
  | context [match ?m tr with _ => _ end] =>
      destruct (m tr) as [o0 t0] eqn:E0;
      assert (F0 : emits opening m)
        by (destruct ba; emit; apply emits_call; exact I)
  end.
  destruct (F0 _ _ _ E0) as (e0 & -> & O0). clear F0 E0.
  destruct (opening_quiet _ O0) as (C0 & Q0 & NQ0).
  assert (Stop : forall o : outcome (option (list video)),
             (forall failed, o <> Return (Some failed)) ->
             forall e, Forall calm e ->
             (o, tr ++ e) = (out, tr') ->
             exists new, tr' = tr ++ new
               /\ ((Forall calm new
                    /\ forall failed, out = Return (Some failed) ->
                         subseq failed videos
                         /\ callbacks new
                            = if oc then filter (accepted cfg os) videos
                              else [])
                   \/ (exists pre v r,
                         new = pre ++ [(OnComplete v, r)]
                         /\ Forall calm pre /\ raised r = true
                         /\ out = Raise CallbackError
                         /\ ~ In Quit (actions new)))).
  { intros o No e Q E. inversion E; subst. exists e.
    split; [reflexivity |]. left. split; [assumption |].
    intros failed Ef. now apply No in Ef. }
  destruct o0 as [[] | x |];
    [| now apply (Stop (Raise x)) with e0
     | now apply (Stop Diverge) with e0].
  unfold bind at 1 in H.
  destruct (call env Authenticate (tr ++ e0)) as [o1 t1] eqn:E1.
  destruct (emits_call opening env Authenticate I _ _ _ E1)
    as (e1 & -> & O1).
  clear E1. destruct (opening_quiet _ O1) as (C1 & Q1 & NQ1).
  rewrite <- app_assoc in H.
  destruct o1 as [r1 | x |];
    [| apply (Stop (Raise x)) with (e0 ++ e1);
       [discriminate | now apply Forall_app | assumption]
     | apply (Stop Diverge) with (e0 ++ e1);
       [discriminate | now apply Forall_app | assumption]].
  unfold bind at 1 in H.
  destruct (upload_loop cfg os env fuel oc n args kw videos []
              (tr ++ e0 ++ e1)) as [o2 t2] eqn:E2.
  destruct (upload_loop_inv _ _ _ _ _ _ _ _ _ _ _ _ _ E2)
    as (e2 & -> & NQ2 & R2 & Q2).
  clear E2. rewrite <- !app_assoc in H.
  destruct o2 as [failed | x |].
  - destruct (R2 failed eq_refl) as ((extra & Ex & Sub) & C2).
    simpl in Ex. subst extra.
    destruct Q2 as [Q2 | (? & ? & ? & _ & _ & _ & D)]; [| discriminate].
    unfold bind at 1 in H.
    match type of H with
    | context [match ?m ?t with _ => _ end] =>
        destruct (m t) as [o3 t3] eqn:E3;
        assert (F3 : emits (eq Quit) m)
          by (destruct (quit_on_end cfg); emit; apply emits_call; reflexivity)
    end.
    destruct (F3 _ _ _ E3) as (e3 & -> & O3). clear F3 E3.
    destruct (closing_quiet _ O3) as (C3 & Q3).
    rewrite <- !app_assoc in H.
    assert (Q : Forall calm (e0 ++ e1 ++ e2 ++ e3))
      by now rewrite !Forall_app.
    destruct o3 as [[] | x |];
      [| now apply (Stop (Raise x)) with (e0 ++ e1 ++ e2 ++ e3)
       | now apply (Stop Diverge) with (e0 ++ e1 ++ e2 ++ e3)].
    inversion H; subst. exists (e0 ++ e1 ++ e2 ++ e3).
    split; [reflexivity |]. left. split; [assumption |].
    intros failed' Ef. inversion Ef; subst. split; [assumption |].
    rewrite !callbacks_app, C0, C1, C2, C3. simpl. now rewrite app_nil_r.
  - destruct Q2 as [Q2 | (pre & v & r & -> & Qp & Rr & D)].
    + apply (Stop (Raise x)) with (e0 ++ e1 ++ e2);
        [discriminate | now rewrite !Forall_app | assumption].
    + inversion H; subst. inversion D; subst.
      exists (e0 ++ e1 ++ pre ++ [(OnComplete v, r)]).
      split; [reflexivity |]. right.
      exists (e0 ++ e1 ++ pre), v, r. rewrite <- !app_assoc.
      split; [reflexivity | split; [now rewrite !Forall_app |]].
      split; [assumption | split; [reflexivity |]].
      unfold actions in *. rewrite !map_app, !in_app_iff in *. tauto.
  - destruct Q2 as [Q2 | (? & ? & ? & _ & _ & _ & D)]; [| discriminate].
    apply (Stop Diverge) with (e0 ++ e1 ++ e2);
      [discriminate | now rewrite !Forall_app | assumption].
Qed.

End Videos.

(** *** Claims about the batch uploader *)

(** C7: for every job list, the failed list that [upload_videos]
    returns is no longer than the job list, each of its elements is one
    of the jobs, and they come in the order of the job list. *)
Theorem failed_drawn_from_jobs cfg os env fuel videos ba oc n args kw
  tr failed tr' :
  upload_videos cfg os env fuel videos ba oc n args kw tr
    = (Return (Some failed), tr') ->
  (List.length failed <= List.length videos)%nat
  /\ (forall v, In v failed -> In v videos)
  /\ subseq failed videos.
Proof.
  intros H.
  destruct (upload_videos_inv _ _ _ _ _ _ _ _ _ _ _ _ _ H)
    as (new & _ & [(_ & R) | (? & ? & ? & _ & _ & _ & D & _)]);
    [| discriminate].
  destruct (R failed eq_refl) as (Sub & _).
  split; [now apply subseq_length | split; [| assumption]].
  now apply subseq_In.
Qed.

Lemma failed_drawn_from_jobs_witness :
  (List.length [Demo.clip; Demo.missing; Demo.pathless]
   <= List.length [Demo.clip; Demo.missing; Demo.pathless])%nat
  /\ (forall v, In v [Demo.clip; Demo.missing; Demo.pathless] ->
                In v [Demo.clip; Demo.missing; Demo.pathless])
  /\ subseq [Demo.clip; Demo.missing; Demo.pathless]
            [Demo.clip; Demo.missing; Demo.pathless].
Proof.
  apply (failed_drawn_from_jobs Demo.cfg Demo.os Demo.smooth 5
           [Demo.clip; Demo.missing; Demo.pathless] false true 3 [] [] []
           [Demo.clip; Demo.missing; Demo.pathless]
           [(GetBrowser, quiet); (Authenticate, quiet);
            (OnComplete Demo.clip, quiet); (Quit, quiet)]).
  reflexivity.
Defined.

(** C6, as the code has it: when a completion callback is supplied and
    [upload_videos] returns, the callback has been called exactly once,
    in order, with each job that got past path resolution and the
    existence and extension check, and with no other job. *)
Theorem callback_once_per_accepted_job cfg os env fuel videos ba n args kw
  tr failed tr' :
  upload_videos cfg os env fuel videos ba true n args kw tr
    = (Return (Some failed), tr') ->
  exists new,
    tr' = tr ++ new /\ callbacks new = filter (accepted cfg os) videos.
Proof.
  intros H.
  destruct (upload_videos_inv _ _ _ _ _ _ _ _ _ _ _ _ _ H)
    as (new & E & [(_ & R) | (? & ? & ? & _ & _ & _ & D & _)]);
    [| discriminate].
  exists new. split; [assumption |]. now destruct (R failed eq_refl).
Qed.

Lemma callback_once_per_accepted_job_witness :
  exists new,
    [(GetBrowser, quiet); (Authenticate, quiet);
     (OnComplete Demo.clip, quiet); (Quit, quiet)] = [] ++ new
    /\ callbacks new
       = filter (accepted Demo.cfg Demo.os)
                [Demo.clip; Demo.missing; Demo.pathless].
Proof.
  apply (callback_once_per_accepted_job Demo.cfg Demo.os Demo.smooth 5
           [Demo.clip; Demo.missing; Demo.pathless] false 3 [] [] []
           [Demo.clip; Demo.missing; Demo.pathless]
           [(GetBrowser, quiet); (Authenticate, quiet);
            (OnComplete Demo.clip, quiet); (Quit, quiet)]).
  reflexivity.
Defined.

(** C6 as stated fails: a job whose file does not exist is recorded as
    failed, and the supplied callback is never called with it. *)
Lemma callback_skipped_for_rejected_job :
  upload_videos Demo.cfg Demo.os Demo.smooth 5 [Demo.missing] false true 1
    [] [] []
  = (Return (Some [Demo.missing]),
     [(GetBrowser, quiet); (Authenticate, quiet); (Quit, quiet)])
  /\ ~ In Demo.missing
          (callbacks
             (snd (upload_videos Demo.cfg Demo.os Demo.smooth 5 [Demo.missing]
                     false true 1 [] [] []))).
Proof. split; [reflexivity | simpl; tauto]. Qed.

(** C10: if a call of the completion callback raises, [upload_videos]
    ends with that exception instead of a failed list, the raising call
    is the last thing that happened (no later job is worked on), and the
    session has not been quit, whatever [quit_on_end] says. *)
Theorem callback_exception_propagates cfg os env fuel videos ba oc n
  args kw tr out tr' pre v r post :
  upload_videos cfg os env fuel videos ba oc n args kw tr = (out, tr') ->
  tr' = tr ++ pre ++ (OnComplete v, r) :: post ->
  raised r = true ->
  out = Raise CallbackError
  /\ post = []
  /\ ~ In Quit (actions (pre ++ (OnComplete v, r) :: post)).
Proof.
  intros H E Rr.
  destruct (upload_videos_inv _ _ _ _ _ _ _ _ _ _ _ _ _ H)
    as (new & E' & [(Q & _) | (pre0 & v0 & r0 & En & Qp & _ & D & NQ)]);
    rewrite E' in E; apply app_inv_head in E; subst new.
  - exfalso.
    apply (angry_not_calm _ pre post (OnComplete v, r) Q Rr eq_refl).
  - split; [assumption | split; [| assumption]].
    symmetry in En.
    exact (angry_is_last _ _ _ _ (OnComplete v, r) Qp Rr En).
Qed.

Lemma callback_exception_propagates_witness :
  @Raise (option (list video)) CallbackError = Raise CallbackError
  /\ @nil event = []
  /\ ~ In Quit
       (actions ([(GetBrowser, quiet); (Authenticate, quiet)]
                 ++ (OnComplete Demo.clip,
                     {| raised := true; selected := false |}) :: [])).
Proof.
  apply (callback_exception_propagates Demo.cfg Demo.os Demo.touchy 5
           [Demo.clip; Demo.missing] false true 3 [] [] []
           (Raise CallbackError)
           [(GetBrowser, quiet); (Authenticate, quiet);
            (OnComplete Demo.clip, {| raised := true; selected := false |})]
           [(GetBrowser, quiet); (Authenticate, quiet)]
           Demo.clip {| raised := true; selected := false |} []);
    reflexivity.
Defined.

(** *** Claims about the interactivity stage *)

(** Case analysis on the replies of the oracle [env] met along a run
    [H]. *)
Ltac split_reply env H :=
  repeat match type of H with
         | context [env ?t ?a] =>
             let r := fresh "r" in
             set (r := env t a) in *; clearbody r;
             destruct r as [? ?]; simpl in H
         | context [if ?b then _ else _] =>
             is_var b; destruct b; simpl in H
         | context [xorb ?c ?b] =>
             is_var c; is_var b; destruct c, b; simpl in H
         end.










(** *** Claims about the description stage *)






(** *** Claims about the file-attachment stage *)

(** Whatever the caller passes, the only text [complete_upload_form]
    ever sends to the file input is the empty string. *)
Lemma file_input_gets_default_path cfg env fuel path description args kw
  tr out tr' :
  complete_upload_form cfg env fuel path description args kw tr = (out, tr') ->
  exists new,
    tr' = tr ++ new /\ Forall (eq (Text "")) (typed Sel.upload_video new).
Proof.
  intros H.
  destruct (complete_upload_form_emits _ _ _ _ _ _ _ _ _ _ H)
    as (new & -> & F).
  exists new. split; [reflexivity | now apply form_actions_file_input].
Qed.

(** Called from [upload_videos], [complete_upload_form] raises
    [TypeError] before it touches the browser: the keyword
    [num_retires] reaches [_go_to_upload], which takes none. *)
Lemma complete_upload_form_rejects_keywords cfg env fuel path description
  args k kw tr :
  complete_upload_form cfg env fuel path description args (k :: kw) tr
  = (Raise TypeError, tr).
Proof.
  unfold complete_upload_form, call_go_to_upload, bind.
  destruct args; reflexivity.
Qed.

(** C1, on the code: the resolved path [/videos/clip.mp4] is never sent
    to the file input.  A direct call of [complete_upload_form] runs to
    the end and sends the empty string instead; through [upload_videos]
    the job fails before anything is sent. *)
Theorem file_input_never_gets_resolved_path :
  fst (complete_upload_form Demo.cfg Demo.smooth 5 "/videos/clip.mp4"
         (Some "@a") [] [] [])
  = Return tt
  /\ typed Sel.upload_video
       (snd (complete_upload_form Demo.cfg Demo.smooth 5 "/videos/clip.mp4"
               (Some "@a") [] [] []))
     = [Text ""]
  /\ resolve Demo.os Demo.clip = Some ("/videos/clip.mp4", Some "hi")
  /\ upload_videos Demo.cfg Demo.os Demo.smooth 5 [Demo.clip] false false 1
       [] [] []
     = (Return (Some [Demo.clip]),
        [(GetBrowser, quiet); (Authenticate, quiet); (Quit, quiet)]).
Proof. repeat split. Qed.

(** The loop of [_set_video] by itself: it never raises, and it makes at
    most [n] attempts. *)
Lemma retry_bounded env n path tr :
  exists new,
    retry env n path tr = (Return tt, tr ++ new)
    /\ (attempts new <= n)%nat.
Proof.
  revert tr. induction n as [| n IH]; intros tr; simpl.
  - exists []. rewrite app_nil_r. split; [reflexivity | simpl; lia].
  - unfold try_except.
    destruct (attempt env path tr) as [o t] eqn:A.
    assert (exists e, t = tr ++ e /\ attempts e = 1%nat
                      /\ o <> Diverge) as (e & -> & A1 & ND).
    { unfold attempt, bind, call, ret in A. simpl in A.
      split_reply env A; inversion A; subst;
        repeat rewrite <- app_assoc; simpl;
        eexists; (split; [reflexivity | split; [reflexivity | discriminate]]). }
    destruct o as [[] | x |]; [| | congruence].
    + exists e. split; [reflexivity | lia].
    + destruct (IH (tr ++ e)) as (new & E & B).
      exists (e ++ new). rewrite app_assoc.
      split; [exact E | rewrite attempts_app; lia].
Qed.

(** C5, on the code: with [num_retires = 3] and an upload that is never
    confirmed, [upload_videos] makes no attempt at all (the job fails on
    the [TypeError]); a direct call of [complete_upload_form] makes one
    attempt, never three; only [_set_video] called with
    [num_retries = 3] itself makes the three attempts. *)
Theorem retries_never_reach_file_stage :
  upload_videos Demo.cfg Demo.os Demo.unconfirmed 5 [Demo.clip] false false 3
    [] [] []
  = (Return (Some [Demo.clip]),
     [(GetBrowser, quiet); (Authenticate, quiet); (Quit, quiet)])
  /\ complete_upload_form Demo.cfg Demo.unconfirmed 5 "/videos/clip.mp4"
       (Some "@a") [] [("num_retries", Py.VInt 3)] []
     = (Raise TypeError, [])
  /\ attempts
       (snd (complete_upload_form Demo.cfg Demo.unconfirmed 5
               "/videos/clip.mp4" (Some "@a") [] [] []))
     = 1%nat
  /\ attempts (snd (_set_video Demo.unconfirmed [] "/videos/clip.mp4" 3 []))
     = 3%nat.
Proof. repeat split. Qed.

(** *** Claims about the typing loop *)

Lemma find_range s c : Py.find s c = -1 \/ 0 <= Py.find s c.
Proof.
  induction s as [| a s IH]; simpl; [now left |].
  destruct (Ascii.eqb a c); [right; lia |].
  destruct (Py.find s c <? 0) eqn:L; [now left | right; lia].
Qed.

Lemma find_absent_tail a s c :
  Py.find (String a s) c = -1 -> Py.find s c = -1.
Proof.
  simpl. destruct (Ascii.eqb a c); [discriminate |].
  destruct (find_range s c) as [E | G]; [trivial |].
  destruct (Py.find s c <? 0) eqn:L; lia.
Qed.

Lemma find_absent_drop n s c :
  Py.find s c = -1 -> Py.find (Py.drop n s) c = -1.
Proof.
  revert s. induction n as [| n IH]; intros [| a s] H; simpl; auto.
  apply IH. now apply find_absent_tail in H.
Qed.

Lemma length_drop n s :
  String.length (Py.drop n s) = (String.length s - n)%nat.
Proof.
  revert s. induction n as [| n IH]; intros [| a s]; simpl; auto.
Qed.

(** [s[-1:]] of a non-empty string is not empty. *)
Lemma last_char_nonempty s :
  s <> EmptyString -> Py.slice_from (-1) s <> EmptyString.
Proof.
  intros N E. apply (f_equal String.length) in E.
  unfold Py.slice_from, Py.bound, Py.len in E. rewrite length_drop in E.
  destruct s as [| a s]; [congruence |].
  change (-1 <? 0) with true in E. cbv iota in E.
  simpl String.length in E. lia.
Qed.

(** One pass of the loop on a text that does not start with a
    trigger. *)
Lemma typing_loop_literal env fuel s :
  s <> EmptyString -> Py.find s "@" <> 0 -> Py.find s "#" <> 0 ->
  typing_loop env (S fuel) s
  = (call env (SendKeys Sel.description
                 (Text (Py.slice_to
                          (Z.min (Py.find s "@") (Py.find s "#")) s))) ;;
     typing_loop env fuel
       (Py.slice_from (Z.min (Py.find s "@") (Py.find s "#")) s)).
Proof.
  intros N M Hh. destruct s as [| a s]; [congruence |].
  cbn [typing_loop].
  apply Z.eqb_neq in M, Hh. now rewrite M, Hh.
Qed.

(** A non-empty text without [@] and [#] keeps the loop going for
    ever, as long as typing into the field does not raise. *)
Lemma plain_text_never_ends (env : oracle) fuel :
  (forall tr k, raised (env tr (SendKeys Sel.description k)) = false) ->
  forall s tr,
    s <> EmptyString -> Py.find s "@" = -1 -> Py.find s "#" = -1 ->
    fst (typing_loop env fuel s tr) = Diverge.
Proof.
  intros Henv. induction fuel as [| fuel IH]; intros s tr N M Hh.
  - destruct s; [congruence | reflexivity].
  - rewrite typing_loop_literal by (trivial; lia).
    rewrite M, Hh. change (Z.min (-1) (-1)) with (-1).
    unfold bind, call. rewrite Henv.
    apply IH.
    + now apply last_char_nonempty.
    + now apply find_absent_drop.
    + now apply find_absent_drop.
Qed.

(** C3, on the code: on the description [hello] the loop does not
    terminate, whatever number of iterations it is given, and so the
    description stage does not return either. *)
Theorem typing_loop_diverges_on_hello fuel tr :
  fst (typing_loop Demo.smooth fuel "hello" tr) = Diverge
  /\ fst (_set_description Demo.cfg Demo.smooth fuel (Some "hello") tr)
     = Diverge.
Proof.
  assert (D : forall t, fst (typing_loop Demo.smooth fuel "hello" t) = Diverge).
  { intros t. apply plain_text_never_ends; [reflexivity | discriminate | |];
      reflexivity. }
  split; [apply D |].
  unfold _set_description, bind, try_except, typing.
  change (Py.len "hello" >? max_description_length Demo.cfg) with false.
  cbv iota.
  destruct (prepare_field Demo.smooth tr) as [o t] eqn:P.
  assert (o = Return tt) as ->.
  { unfold prepare_field, _clear, bind, call, ret in P. simpl in P.
    now inversion P. }
  specialize (D t). destruct (typing_loop Demo.smooth fuel "hello" t) as [o2 t2].
  simpl in D. now subst o2.
Qed.

(** After its first pass on [hello] the loop is left with [o], and every
    further pass types the empty string. *)
Lemma stuck_on_last_char fuel tr :
  text_of (typed Sel.description (snd (typing_loop Demo.smooth fuel "o" tr)))
  = text_of (typed Sel.description tr).
Proof.
  revert tr. induction fuel as [| fuel IH]; intros tr; [reflexivity |].
  change (typing_loop Demo.smooth (S fuel) "o" tr)
    with (typing_loop Demo.smooth fuel "o"
            (tr ++ [(SendKeys Sel.description (Text ""), quiet)])).
  rewrite IH, typed_app, text_of_app. simpl.
  generalize (text_of (typed Sel.description tr)).
  induction s; simpl; congruence.
Qed.

(** C2, on the code: an absent trigger counts as index [-1], not as
    infinitely far.  On [a#b #] the first literal run typed is [a#b ],
    which runs past the [#] at index 1 (the run up to it is [a]); on
    [hello] what has been typed is [hell] however long the loop runs, so
    the tokens never add up to the description. *)
Theorem literal_run_ignores_nearer_trigger :
  typing_loop Demo.smooth 5 "a#b #" []
  = (Return tt,
     [(SendKeys Sel.description (Text "a#b "), quiet);
      (SendKeys Sel.description (Text "#"), quiet);
      (Sleep, quiet);
      (SendKeys Sel.description (Text ""), quiet);
      (WaitPresent (Sel.hashtags "") explicit_wait, quiet);
      (Click (Sel.hashtags ""), quiet)])
  /\ Py.find "a#b #" "@" = -1
  /\ Py.find "a#b #" "#" = 1
  /\ Py.slice_to 1 "a#b #" = "a"
  /\ forall fuel,
       text_of (typed Sel.description
                  (snd (typing_loop Demo.smooth (S fuel) "hello" [])))
       = "hell".
Proof.
  repeat split. intros fuel.
  change (typing_loop Demo.smooth (S fuel) "hello" [])
    with (typing_loop Demo.smooth fuel "o"
            [(SendKeys Sel.description (Text "hell"), quiet)]).
  now rewrite stuck_on_last_char.
Qed.

(** *** What does hold of the typing loop *)

Lemma bind_return {A B} (m : M A) (k : A -> M B) tr b tr' :
  bind m k tr = (Return b, tr') ->
  exists a t, m tr = (Return a, t) /\ k a t = (Return b, tr').
Proof.
  unfold bind. destruct (m tr) as [[a | e |] t]; intros H;
    try discriminate. now exists a, t.
Qed.

Lemma call_return env a tr r tr' :
  call env a tr = (Return r, tr') -> tr' = tr ++ [(a, r)].
Proof.
  unfold call. destruct (raised (env tr a)); intros H; inversion H.
  reflexivity.
Qed.

Lemma take_drop n s : (Py.take n s ++ Py.drop n s)%string = s.
Proof.
  revert s. induction n as [| n IH]; intros [| a s]; simpl; auto.
  now rewrite IH.
Qed.

Lemma slice_to_from i s : (Py.slice_to i s ++ Py.slice_from i s)%string = s.
Proof. apply take_drop. Qed.

(** [s.split(c)[0]] is a prefix of [s]. *)
Lemma first_split_prefix c s :
  (Py.first (Py.split c s)
   ++ Py.drop (String.length (Py.first (Py.split c s))) s)%string = s.
Proof.
  induction s as [| a s IH]; simpl; [reflexivity |].
  destruct (Ascii.eqb a c); [reflexivity |].
  destruct (Py.split c s) as [| w ws]; simpl in *; congruence.
Qed.

Lemma first_split_length c s :
  (String.length (Py.first (Py.split c s)) <= String.length s)%nat.
Proof.
  induction s as [| a s IH]; simpl; [lia |].
  destruct (Ascii.eqb a c); simpl; [lia |].
  destruct (Py.split c s) as [| w ws]; simpl in *; lia.
Qed.

Lemma find_zero a s c : Py.find (String a s) c = 0 -> a = c.
Proof.
  simpl. destruct (Ascii.eqb a c) eqn:E; [now apply Ascii.eqb_eq in E |].
  destruct (find_range s c); destruct (Py.find s c <? 0) eqn:L; lia.
Qed.

(** [s[1:]] and [s[n+1:]] of a string with a first character. *)
Lemma slice_from_succ a s n :
  (n <= String.length s)%nat ->
  Py.slice_from (Z.of_nat n + 1) (String a s) = Py.drop n s.
Proof.
  intros L. unfold Py.slice_from, Py.bound, Py.len.
  destruct (Z.of_nat n + 1 <? 0) eqn:G; [lia |].
  simpl String.length.
  replace (Z.to_nat (Z.min (Z.of_nat (S (String.length s)))
                           (Z.of_nat n + 1))) with (S n) by lia.
  reflexivity.
Qed.

(** The reconstruction part of C2 for the runs that do end: when the
    loop returns, the texts it typed into the description field add up
    to the description. *)
Lemma typing_loop_reconstructs env fuel :
  forall s tr tr',
    typing_loop env fuel s tr = (Return tt, tr') ->
    exists new,
      tr' = tr ++ new /\ text_of (typed Sel.description new) = s.
Proof.
  induction fuel as [| fuel IH]; intros s tr tr' H.
  - destruct s; inversion H; subst. exists []. now rewrite app_nil_r.
  - destruct s as [| a s].
    { inversion H; subst. exists []. now rewrite app_nil_r. }
    cbn [typing_loop] in H.
    destruct ((Py.find (String a s) "@" =? 0)
              || (Py.find (String a s) "#" =? 0)) eqn:T.
    + set (name := Py.first (Py.split " " (Py.slice_from 1 (String a s))))
        in *.
      assert (Hs : Py.slice_from 1 (String a s) = s)
        by (apply (slice_from_succ a s 0); lia).
      assert (Ha : (if Py.find (String a s) "@" =? 0 then "@" else "#")
                   = String a EmptyString).
      { destruct (Py.find (String a s) "@" =? 0) eqn:M.
        - apply Z.eqb_eq, find_zero in M. now subst.
        - simpl in T. apply Z.eqb_eq, find_zero in T. now subst. }
      rewrite Ha in H.
      apply bind_return in H as (r1 & t1 & C1 & H).
      apply call_return in C1. subst t1.
      unfold bind at 1, sleep in H.
      apply bind_return in H as (r2 & t2 & C2 & H).
      apply call_return in C2. subst t2.
      apply bind_return in H as (r3 & t3 & C3 & H).
      apply call_return in C3. subst t3.
      apply bind_return in H as (r4 & t4 & C4 & H).
      apply call_return in C4. subst t4.
      apply IH in H as (new & -> & E).
      eexists. repeat rewrite <- app_assoc. split; [reflexivity |].
      simpl. destruct (Py.find (String a s) "@" =? 0); simpl;
        rewrite E; unfold Py.len; subst name; rewrite Hs;
        rewrite slice_from_succ by apply first_split_length;
        now rewrite first_split_prefix.
    + apply bind_return in H as (r1 & t1 & C1 & H).
      apply call_return in C1. subst t1.
      apply IH in H as (new & -> & E).
      eexists. rewrite <- app_assoc. split; [reflexivity |].
      simpl. rewrite E. apply slice_to_from.
Qed.

(** ** Further properties of the code *)

(** *** The batch loop, call by call *)

Lemma upload_loop_exact cfg os env fuel oc n args kw videos :
  forall failed tr out tr',
    upload_loop cfg os env fuel oc n args kw videos failed tr = (out, tr') ->
    exists new,
      tr' = tr ++ new
      /\ ((out = Return (failed ++ videos)
           /\ actions new = callback_script cfg os oc videos
           /\ Forall returned new)
          \/ (out = Raise CallbackError
              /\ stopped_in (callback_script cfg os oc videos) new
                            CallbackError)).
Proof.
  unfold callback_script.
  induction videos as [| v vs IH]; intros failed tr out tr' H.
  - inversion H; subst. exists []. rewrite !app_nil_r.
    split; [reflexivity |]. left.
    split; [reflexivity | split; [now destruct oc | constructor]].
  - simpl in H.
    assert (Skip : accepted cfg os v = false ->
                   upload_loop cfg os env fuel oc n args kw vs
                     (failed ++ [v]) tr = (out, tr') ->
                   exists new,
                     tr' = tr ++ new
                     /\ ((out = Return (failed ++ v :: vs)
                          /\ actions new
                             = map OnComplete
                                 (if oc
                                  then filter (accepted cfg os) (v :: vs)
                                  else [])
                          /\ Forall returned new)
                         \/ (out = Raise CallbackError
                             /\ stopped_in
                                  (map OnComplete
                                     (if oc
                                      then filter (accepted cfg os) (v :: vs)
                                      else []))
                                  new CallbackError))).
    { intros Hacc Ho. destruct (IH _ _ _ _ Ho) as (new & -> & P).
      exists new. split; [reflexivity |].
      simpl filter. rewrite Hacc, <- app_assoc in *. exact P. }
    assert (Acc := eq_refl (accepted cfg os v)).
    unfold accepted at 2 in Acc. unfold accepted in Skip at 1.
    destruct (resolve os v) as [[path d] |] eqn:Rv; [| now apply Skip].
    destruct (_check_valid_path cfg os path) eqn:V; simpl in H;
      [| now apply Skip].
    clear Skip. unfold bind at 1, try_except, bind at 1 in H.
    rewrite complete_upload_form_rejects_keywords in H.
    unfold ret at 1 in H. simpl filter. rewrite Acc.
    destruct oc.
    + unfold bind at 1, bind at 1, call in H.
      destruct (raised (env tr (OnComplete v))) eqn:Rz.
      * inversion H; subst. eexists. split; [reflexivity |]. right.
        split; [reflexivity |].
        exists [], (OnComplete v), (env tr (OnComplete v)),
          (map OnComplete (filter (accepted cfg os) vs)).
        split; [reflexivity | split; [exact Rz | split; [reflexivity |]]].
        split; [constructor | reflexivity].
      * unfold ret at 1 in H.
        destruct (IH _ _ _ _ H)
          as (new & -> & [(-> & A & R)
                         | (-> & pre & a & r & rest & -> & Rr & Ea & Rp & Er)]).
        -- eexists. rewrite <- app_assoc. split; [reflexivity |]. left.
           rewrite <- app_assoc. simpl.
           split; [reflexivity | split; [now rewrite A |]].
           constructor; [exact Rz | exact R].
        -- eexists. rewrite <- app_assoc. split; [reflexivity |]. right.
           split; [reflexivity |].
           exists ((OnComplete v, env tr (OnComplete v)) :: pre), a, r, rest.
           split; [reflexivity | split; [exact Rr | split; [exact Ea |]]].
           split; [constructor; [exact Rz | exact Rp] |].
           unfold actions in Er |- *. simpl. now rewrite Er.
    + unfold bind at 1, ret at 1 in H.
      destruct (IH _ _ _ _ H) as (new & -> & P).
      exists new. split; [reflexivity |].
      rewrite <- app_assoc in P. exact P.
Qed.

(** *** Working through a list of calls *)

Lemma actions_app (a b : trace) : actions (a ++ b) = actions a ++ actions b.
Proof. apply map_app. Qed.

Lemma follows_ret {A} (a : A) : follows [] (ret a) (eq a).
Proof.
  intros tr out tr' H. inversion H; subst. exists []. rewrite app_nil_r.
  split; [reflexivity |]. left. exists a.
  repeat split. constructor.
Qed.

Lemma follows_call env a : follows [a] (call env a) (fun _ => True).
Proof.
  intros tr out tr' H. unfold call in H.
  exists [(a, env tr a)].
  destruct (raised (env tr a)) eqn:R; inversion H; subst;
    (split; [reflexivity |]).
  - right. exists (exn_of a). split; [reflexivity |].
    exists [], a, (env tr a), [].
    split; [reflexivity | split; [exact R | split; [reflexivity |]]].
    split; [constructor | reflexivity].
  - left. exists (env tr a).
    split; [reflexivity | split; [exact I | split; [reflexivity |]]].
    constructor; [exact R | constructor].
Qed.

Lemma follows_bind {A B} t1 t2 (m : M A) (k : A -> M B) ok1 ok2 :
  follows t1 m ok1 ->
  (forall a, ok1 a -> follows t2 (k a) ok2) ->
  follows (t1 ++ t2) (bind m k) ok2.
Proof.
  intros Hm Hk tr out tr' H. unfold bind in H.
  destruct (m tr) as [o t] eqn:E.
  destruct (Hm _ _ _ E)
    as (n1 & -> & [(a & -> & Oa & A1 & R1)
                  | (e & -> & pre & x & r & rest & -> & Rr & Ex & Rp & Er)]).
  - destruct (Hk a Oa _ _ _ H)
      as (n2 & -> & [(b & -> & Ob & A2 & R2)
                    | (e & -> & pre & x & r & rest & -> & Rr & Ex & Rp & Er)]).
    + exists (n1 ++ n2). rewrite app_assoc. split; [reflexivity |]. left.
      exists b. split; [reflexivity | split; [exact Ob |]].
      rewrite actions_app, A1, A2.
      split; [reflexivity | now apply Forall_app].
    + exists (n1 ++ pre ++ [(x, r)]). rewrite !app_assoc.
      split; [reflexivity |]. right. exists e.
      split; [reflexivity |].
      exists (n1 ++ pre), x, r, rest.
      split; [reflexivity | split; [exact Rr | split; [exact Ex |]]].
      split; [now apply Forall_app |].
      rewrite Er, <- A1, <- !app_assoc, !actions_app, <- !app_assoc.
      reflexivity.
  - inversion H; subst. exists (pre ++ [(x, r)]).
    split; [reflexivity |]. right. exists (exn_of x).
    split; [reflexivity |].
    exists pre, x, r, (rest ++ t2).
    split; [reflexivity | split; [exact Rr | split; [reflexivity |]]].
    split; [exact Rp |]. now rewrite <- app_assoc.
Qed.

Lemma follows_weaken {A} todo (m : M A) (ok ok' : A -> Prop) :
  (forall a, ok a -> ok' a) -> follows todo m ok -> follows todo m ok'.
Proof.
  intros W Hm tr out tr' H.
  destruct (Hm _ _ _ H) as (new & -> & [(a & -> & Oa & P) | P]);
    exists new; (split; [reflexivity |]); [left | right; exact P].
  exists a. split; [reflexivity | split; [now apply W | exact P]].
Qed.

(** Sequencing the calls the way the stages do: every call's result is
    dropped. *)
Ltac follow :=
  repeat first
    [ apply follows_ret
    | apply follows_call
    | match goal with
      | |- follows (?a :: ?t) (bind (call ?env ?a) _) _ =>
          apply (follows_bind [a] t); [apply follows_call | intros ? _]
      end ].

(** *** [upload_videos], call by call *)

Lemma upload_loop_follows cfg os env fuel oc n args kw videos failed :
  follows (callback_script cfg os oc videos)
          (upload_loop cfg os env fuel oc n args kw videos failed)
          (eq (failed ++ videos)).
Proof.
  intros tr out tr' H.
  destruct (upload_loop_exact _ _ _ _ _ _ _ _ _ _ _ _ _ H)
    as (new & -> & [(-> & A & R) | (-> & S)]);
    exists new; (split; [reflexivity |]).
  - left. exists (failed ++ videos). repeat split; assumption.
  - right. exists CallbackError. split; [reflexivity | exact S].
Qed.

Lemma upload_videos_follows cfg os env fuel videos ba oc n args kw :
  videos <> [] ->
  follows (script cfg os ba oc videos)
          (upload_videos cfg os env fuel videos ba oc n args kw)
          (eq (Some videos)).
Proof.
  intros N.
  assert (Hb : upload_videos cfg os env fuel videos ba oc n args kw
               = ((if ba then ret tt else call env GetBrowser ;; ret tt) ;;
                  call env Authenticate ;;
                  failed <- upload_loop cfg os env fuel oc n args kw videos [] ;;
                  (if quit_on_end cfg then call env Quit ;; ret tt
                   else ret tt) ;;
                  ret (Some failed))).
  { destruct videos; [congruence | reflexivity]. }
  rewrite Hb. clear Hb. unfold script.
  apply follows_bind with (ok1 := fun _ => True).
  { destruct ba.
    - apply follows_weaken with (ok := eq tt); [trivial | apply follows_ret].
    - apply follows_weaken with (ok := eq tt); [trivial |].
      apply (follows_bind [GetBrowser] []) with (ok1 := fun _ => True);
        [apply follows_call | intros ? _; apply follows_ret]. }
  intros _ _.
  apply (follows_bind [Authenticate]) with (ok1 := fun _ => True);
    [apply follows_call | intros _ _].
  apply follows_bind with (ok1 := eq ([] ++ videos));
    [apply upload_loop_follows | intros failed <-].
  rewrite <- (app_nil_r (if quit_on_end cfg then [Quit] else [])).
  apply follows_bind with (ok1 := fun _ => True); [| intros _ _; apply follows_ret].
  destruct (quit_on_end cfg).
  - apply follows_weaken with (ok := eq tt); [trivial |].
    apply (follows_bind [Quit] []) with (ok1 := fun _ => True);
      [apply follows_call | intros ? _; apply follows_ret].
  - apply follows_weaken with (ok := eq tt); [trivial | apply follows_ret].
Qed.


(** X1: whenever [upload_videos] returns, it returns [None] for an
    empty job list, having called nothing, and otherwise the whole job
    list as the failed list: no job is ever left out of it. *)
Theorem upload_videos_reports_every_job_failed cfg os env fuel videos
  ba oc n args kw tr r tr' :
  upload_videos cfg os env fuel videos ba oc n args kw tr = (Return r, tr') ->
  (videos = [] /\ r = None /\ tr' = tr)
  \/ (videos <> [] /\ r = Some videos).
Proof.
  intros H. destruct videos as [| v vs].
  - left. inversion H; subst. repeat split.
  - right. split; [discriminate |].
    destruct (upload_videos_follows cfg os env fuel (v :: vs) ba oc n args kw
                ltac:(discriminate) _ _ _ H)
      as (new & _ & [(a & E & <- & _) | (e & E & _)]); [| discriminate].
    now inversion E.
Qed.

Lemma upload_videos_reports_every_job_failed_witness :
  ([Demo.clip; Demo.missing] = [] /\ Some [Demo.clip; Demo.missing] = None
   /\ [(GetBrowser, quiet); (Authenticate, quiet);
       (OnComplete Demo.clip, quiet); (Quit, quiet)] = [])
  \/ ([Demo.clip; Demo.missing] <> []
      /\ Some [Demo.clip; Demo.missing] = Some [Demo.clip; Demo.missing]).
Proof.
  apply (upload_videos_reports_every_job_failed Demo.cfg Demo.os Demo.smooth
           5 [Demo.clip; Demo.missing] false true 1 [] [] []).
  reflexivity.
Defined.

(** X2: when [upload_videos] returns a list, the calls it made are, in
    order: [get_browser] unless a browser agent was supplied,
    [authenticate_agent], [on_complete] once for each accepted job if a
    callback was supplied, and [driver.quit()] if [quit_on_end] is set.
    All of them returned, and the upload page was never opened. *)
Theorem upload_videos_calls_on_return cfg os env fuel videos ba oc n
  args kw tr failed tr' :
  upload_videos cfg os env fuel videos ba oc n args kw tr
    = (Return (Some failed), tr') ->
  exists new,
    tr' = tr ++ new
    /\ actions new
       = (if ba then [] else [GetBrowser]) ++ [Authenticate]
         ++ map OnComplete (if oc then filter (accepted cfg os) videos else [])
         ++ (if quit_on_end cfg then [Quit] else [])
    /\ Forall returned new.
Proof.
  intros H. destruct videos as [| v vs]; [discriminate |].
  destruct (upload_videos_follows cfg os env fuel (v :: vs) ba oc n args kw
              ltac:(discriminate) _ _ _ H)
    as (new & E & [(a & _ & _ & A & R) | (e & D & _)]); [| discriminate].
  exists new. repeat split; assumption.
Qed.

Lemma upload_videos_calls_on_return_witness :
  exists new,
    [(GetBrowser, quiet); (Authenticate, quiet);
     (OnComplete Demo.clip, quiet); (Quit, quiet)] = [] ++ new
    /\ actions new
       = (if false then [] else [GetBrowser]) ++ [Authenticate]
         ++ map OnComplete
              (if true
               then filter (accepted Demo.cfg Demo.os)
                           [Demo.clip; Demo.missing]
               else [])
         ++ (if quit_on_end Demo.cfg then [Quit] else [])
    /\ Forall returned new.
Proof.
  apply (upload_videos_calls_on_return Demo.cfg Demo.os Demo.smooth 5
           [Demo.clip; Demo.missing] false true 1 [] [] []
           [Demo.clip; Demo.missing]).
  reflexivity.
Defined.



(** X4: [upload_video] can only return when it was given no positional
    argument, and what it returns is then the one-job list as the failed
    list: the single video is always reported as failed. *)
Theorem upload_video_reports_its_job_failed cfg os env AuthBackend fuel
  args filename description ba oc n kw tr r tr' :
  upload_video cfg os env AuthBackend fuel args filename description
    ba oc n kw tr = (Return r, tr') ->
  args = []
  /\ r = Some [{| v_path := filename; v_description := Some description |}].
Proof.
  unfold upload_video. intros H.
  apply bind_return in H as ([] & t & _ & H).
  destruct args as [| a args]; [| discriminate].
  destruct (Py.kw_get "videos" kw); [discriminate |].
  destruct (Py.kw_get "auth" kw); [discriminate |].
  split; [reflexivity |].
  apply upload_videos_reports_every_job_failed in H
    as [(E & _) | (_ & E)]; [discriminate | exact E].
Qed.

Lemma upload_video_reports_its_job_failed_witness :
  @nil Py.pyval = []
  /\ Some [{| v_path := Some "clip.mp4"; v_description := Some (Some "hi") |}]
     = Some [{| v_path := Some "clip.mp4";
                v_description := Some (Some "hi") |}].
Proof.
  apply (upload_video_reports_its_job_failed Demo.cfg Demo.os Demo.smooth
           (ret tt) 5 [] (Some "clip.mp4") (Some "hi") false false 1 [] []
           (Some [{| v_path := Some "clip.mp4";
                     v_description := Some (Some "hi") |}])
           [(GetBrowser, quiet); (Authenticate, quiet); (Quit, quiet)]).
  reflexivity.
Defined.

(** *** The stages of [complete_upload_form] *)

Lemma _go_to_upload_within env : within Navigation (_go_to_upload env).
Proof. unfold within, _go_to_upload. emit. Qed.

Lemma attempt_within env path : within Attachment (attempt env path).
Proof. unfold within, attempt. emit. Qed.

Lemma retry_within env n path : within Attachment (retry env n path).
Proof.
  unfold within. induction n as [| n IH]; simpl.
  - apply emits_ret.
  - apply emits_try; [apply attempt_within | intros _; exact IH].
Qed.

Lemma reconcile_within env flag box :
  stage_of_selector box = Interactivity ->
  within Interactivity (reconcile env flag box).
Proof.
  intros B. unfold within, reconcile.
  apply emits_bind; [apply emits_call; exact B | intros r].
  destruct (Py.xor_truthy _ _) as [[|] |];
    [apply emits_bind; [apply emits_call; exact B | intros _] | |];
    first [apply emits_ret | apply emits_raise].
Qed.

Lemma _set_interactivity_within env c s d :
  within Interactivity (_set_interactivity env c s d).
Proof.
  unfold within, _set_interactivity.
  do 5 (apply emits_bind;
        [first [apply emits_call; reflexivity
               | apply reconcile_within; reflexivity]
        | intros ?]).
  apply reconcile_within; reflexivity.
Qed.

Lemma call_set_interactivity_within env args kw :
  within Interactivity (call_set_interactivity env args kw).
Proof.
  unfold call_set_interactivity.
  repeat match goal with
         | |- context [match ?x with _ => _ end] => destruct x
         end;
    first [apply emits_raise | apply _set_interactivity_within].
Qed.

Lemma typing_loop_within env fuel description :
  within Description (typing_loop env fuel description).
Proof.
  unfold within. revert description.
  induction fuel as [| fuel IH]; intros [| c s];
    try solve [apply emits_ret | apply emits_diverge].
  cbn [typing_loop]. destruct (_ || _).
  - destruct (Py.find (String c s) "@" =? 0); emit; apply IH.
  - emit. apply IH.
Qed.

Lemma prepare_field_within env : within Description (prepare_field env).
Proof. unfold within, prepare_field. emit. Qed.

Lemma _set_description_within cfg env fuel description :
  within Description (_set_description cfg env fuel description).
Proof.
  unfold within, _set_description. destruct description as [s |];
    [| apply emits_ret].
  apply emits_bind; [apply prepare_field_within | intros _].
  apply emits_try.
  - unfold typing. destruct (_ >? _);
      [apply emits_raise | apply typing_loop_within].
  - intros _. unfold retype. emit.
Qed.

Lemma _post_video_within env : within Submission (_post_video env).
Proof. unfold within, _post_video. emit. Qed.

Lemma ascending_weaken lo lo' l :
  (lo' <= lo)%nat -> ascending lo l -> ascending lo' l.
Proof. destruct l; simpl; [trivial | intros L [H A]; split; [lia | exact A]]. Qed.

Lemma ascending_app i lo l1 l2 :
  (lo <= i)%nat -> Forall (eq i) l1 -> ascending i l2 ->
  ascending lo (l1 ++ l2).
Proof.
  intros L F A. revert lo L. induction F as [| x l1 <- F IH]; intros lo L.
  - now apply ascending_weaken with i.
  - simpl. split; [exact L | apply IH; lia].
Qed.

Lemma within_ranks {A} g (m : M A) tr out tr' :
  within g m -> m tr = (out, tr') ->
  exists new, tr' = tr ++ new /\ Forall (eq (rank g)) (ranks new).
Proof.
  intros W H. destruct (W _ _ _ H) as (new & -> & F).
  exists new. split; [reflexivity |].
  unfold ranks, actions in *. rewrite Forall_map in *.
  eapply Forall_impl; [| exact F]. intros e E. simpl in E. now rewrite E.
Qed.

Lemma staged_last {A} g (m : M A) : within g m -> staged (rank g) m.
Proof.
  intros W tr out tr' H.
  destruct (within_ranks _ _ _ _ _ W H) as (new & -> & F).
  exists new. split; [reflexivity |].
  rewrite <- (app_nil_r (ranks new)).
  apply ascending_app with (rank g); [lia | exact F | exact I].
Qed.

Lemma staged_bind {A B} g lo (m : M A) (k : A -> M B) :
  within g m -> (rank g <= lo)%nat -> (forall a, staged lo (k a)) ->
  staged (rank g) (bind m k).
Proof.
  intros W L Hk tr out tr' H. unfold bind in H.
  destruct (m tr) as [o t] eqn:E.
  destruct (within_ranks _ _ _ _ _ W E) as (n1 & -> & F).
  assert (Stop : exists new, tr ++ n1 = tr ++ new
                             /\ ascending (rank g) (ranks new)).
  { exists n1. split; [reflexivity |].
    rewrite <- (app_nil_r (ranks n1)).
    apply ascending_app with (rank g); [lia | exact F | exact I]. }
  destruct o as [a | e |]; [| now inversion H; subst | now inversion H; subst].
  destruct (Hk a _ _ _ H) as (n2 & -> & A2).
  exists (n1 ++ n2). rewrite app_assoc. split; [reflexivity |].
  unfold ranks in *. rewrite map_app.
  apply ascending_app with (rank g); [lia | exact F |].
  now apply ascending_weaken with lo.
Qed.

(** X5: the calls of [complete_upload_form] come stage by stage and
    never mix: first the navigation, then the file attachment, the
    interactivity boxes, the description and the submission, whatever
    raises on the way. *)
Theorem complete_upload_form_stages_in_order cfg env fuel path description
  args kw tr out tr' :
  complete_upload_form cfg env fuel path description args kw tr = (out, tr') ->
  exists new,
    tr' = tr ++ new
    /\ ascending (rank Navigation) (ranks new)
    /\ Forall (fun i => (i <= rank Submission)%nat) (ranks new).
Proof.
  intros H.
  assert (S : staged (rank Navigation)
                (complete_upload_form cfg env fuel path description args kw)).
  { unfold complete_upload_form.
    apply staged_bind with (lo := rank Attachment); [| simpl; lia | intros _].
    { unfold call_go_to_upload. destruct args, kw;
        first [apply _go_to_upload_within | apply emits_raise]. }
    apply staged_bind with (lo := rank Interactivity);
      [apply retry_within | simpl; lia | intros _].
    apply staged_bind with (lo := rank Description);
      [apply call_set_interactivity_within | simpl; lia | intros _].
    apply staged_bind with (lo := rank Submission);
      [apply _set_description_within | simpl; lia | intros _].
    apply staged_last, _post_video_within. }
  destruct (S _ _ _ H) as (new & -> & A).
  exists new. split; [reflexivity | split; [exact A |]].
  destruct (complete_upload_form_emits _ _ _ _ _ _ _ _ _ _ H)
    as (new' & E & F).
  apply app_inv_head in E. subst new'.
  unfold ranks, actions in *. rewrite Forall_map in *.
  eapply Forall_impl; [| exact F]. intros [a r] Fa. simpl in *.
  unfold form in Fa.
  destruct a; try discriminate; simpl; try lia;
    match goal with s : Sel.selector |- _ => destruct s; simpl; lia end.
Qed.

Lemma complete_upload_form_stages_in_order_witness :
  exists new,
    snd (complete_upload_form Demo.cfg Demo.unsuggested 5 "/videos/clip.mp4"
           (Some "@a") [] [] [])
    = [] ++ new
    /\ ascending (rank Navigation) (ranks new)
    /\ Forall (fun i => (i <= rank Submission)%nat) (ranks new).
Proof.
  apply (complete_upload_form_stages_in_order Demo.cfg Demo.unsuggested 5
           "/videos/clip.mp4" (Some "@a") [] [] []
           (fst (complete_upload_form Demo.cfg Demo.unsuggested 5
                   "/videos/clip.mp4" (Some "@a") [] [] []))).
  reflexivity.
Defined.

(** X6: [complete_upload_form] takes no extra argument.  With any
    further positional or keyword argument, [comment=], [stitch=] and
    [duet=] included, it raises [TypeError] before it calls the
    browser. *)
Theorem complete_upload_form_takes_no_extra_argument cfg env fuel path
  description args kw tr :
  args <> [] \/ kw <> [] ->
  complete_upload_form cfg env fuel path description args kw tr
  = (Raise TypeError, tr).
Proof.
  intros N. unfold complete_upload_form, call_go_to_upload, bind.
  destruct args, kw; try reflexivity. destruct N; congruence.
Qed.

Lemma complete_upload_form_takes_no_extra_argument_witness :
  complete_upload_form Demo.cfg Demo.smooth 5 "/videos/clip.mp4" (Some "hi")
    [] [("comment", Py.VBool false)] []
  = (Raise TypeError, []).
Proof.
  apply complete_upload_form_takes_no_extra_argument.
  right. discriminate.
Defined.

(** *** The file-attachment stage by itself *)

(** What one attempt leaves behind: it locates the file input once, it
    sends nothing but [path] to it, and it returns exactly when its last
    call is the wait for the processing mark, which returned. *)
Lemma attempt_outcome env path tr out tr' :
  attempt env path tr = (out, tr') ->
  exists new,
    tr' = tr ++ new
    /\ attempts new = 1%nat
    /\ Forall (eq (Text path)) (typed Sel.upload_video new)
    /\ ((out = Return tt
         /\ exists pre r,
              new = pre ++ [(WaitPresent Sel.process_confirmation
                               explicit_wait, r)]
              /\ raised r = false)
        \/ out = Raise WebDriverException).
Proof.
  intros H. unfold attempt, bind, call, ret in H. simpl in H.
  split_reply env H; inversion H; subst; clear H;
    repeat rewrite <- app_assoc; simpl;
    (eexists; split; [reflexivity |]);
    (split; [reflexivity |]);
    (split; [repeat constructor |]);
    try (right; reflexivity).
  left. split; [reflexivity |].
  eexists (_ :: _ :: _ :: _ :: []), _. split; reflexivity.
Qed.

(** X7: [_set_video] never raises.  It makes at most [num_retries]
    attempts, none at all when [num_retries] is zero or negative; it
    sends nothing but [path] to the file input; and it stops before
    [num_retries] attempts only after an attempt went through, its last
    call being the wait for the processing mark. *)
Theorem _set_video_attempts env args path num_retries tr :
  exists new,
    _set_video env args path num_retries tr = (Return tt, tr ++ new)
    /\ (attempts new <= Z.to_nat num_retries)%nat
    /\ Forall (eq (Text path)) (typed Sel.upload_video new)
    /\ (num_retries <= 0 -> new = [])
    /\ ((attempts new < Z.to_nat num_retries)%nat ->
        exists pre r,
          new = pre ++ [(WaitPresent Sel.process_confirmation
                           explicit_wait, r)]
          /\ raised r = false).
Proof.
  unfold _set_video.
  assert (G : forall n tr,
             exists new,
               retry env n path tr = (Return tt, tr ++ new)
               /\ (attempts new <= n)%nat
               /\ Forall (eq (Text path)) (typed Sel.upload_video new)
               /\ (n = O -> new = [])
               /\ ((attempts new < n)%nat ->
                   exists pre r,
                     new = pre ++ [(WaitPresent Sel.process_confirmation
                                      explicit_wait, r)]
                     /\ raised r = false)).
  { clear tr. induction n as [| n IH]; intros tr; simpl.
    - exists []. rewrite app_nil_r.
      split; [reflexivity | split; [simpl; lia |]].
      split; [constructor | split; [reflexivity | simpl; lia]].
    - unfold try_except. destruct (attempt env path tr) as [o t] eqn:A.
      destruct (attempt_outcome _ _ _ _ _ A)
        as (e & -> & A1 & T1 & [(-> & pre & r & -> & Rr) | ->]).
      + eexists. split; [reflexivity | split; [lia |]].
        split; [exact T1 | split; [discriminate |]].
        intros _. now exists pre, r.
      + destruct (IH (tr ++ e)) as (new & E & B & T & Z0 & Early).
        exists (e ++ new). rewrite app_assoc.
        split; [exact E | split; [rewrite attempts_app; lia |]].
        split; [rewrite typed_app; now apply Forall_app |].
        split; [discriminate |].
        rewrite attempts_app. intros L.
        destruct Early as (pre & r & -> & Rr); [lia |].
        exists (e ++ pre), r. now rewrite app_assoc. }
  destruct (G (Z.to_nat num_retries) tr) as (new & E & B & T & Z0 & Early).
  exists new. repeat split; try assumption.
  intros L. apply Z0. lia.
Qed.

Lemma _set_video_attempts_witness :
  exists new,
    _set_video Demo.unconfirmed [] "/videos/clip.mp4" 2 []
    = (Return tt, [] ++ new)
    /\ (attempts new <= Z.to_nat 2)%nat
    /\ Forall (eq (Text "/videos/clip.mp4")) (typed Sel.upload_video new)
    /\ (2 <= 0 -> new = [])
    /\ ((attempts new < Z.to_nat 2)%nat ->
        exists pre r,
          new = pre ++ [(WaitPresent Sel.process_confirmation
                           explicit_wait, r)]
          /\ raised r = false).
Proof.
  apply (_set_video_attempts Demo.unconfirmed [] "/videos/clip.mp4" 2 []).
Defined.

(** *** The interactivity stage by itself *)

Lemma reconcile_no_lookup env flag box :
  emits (fun a => forall s, a <> FindElement s) (reconcile env flag box).
Proof.
  unfold reconcile.
  apply emits_bind; [apply emits_call; discriminate | intros r].
  destruct (Py.xor_truthy _ _) as [[|] |];
    [apply emits_bind; [apply emits_call; discriminate | intros _] | |];
    first [apply emits_ret | apply emits_raise].
Qed.

(** X8: [_set_interactivity] locates the three boxes before it reads or
    clicks any of them: when one of the lookups raises, the stage raises
    and has read no state and clicked nothing. *)
Theorem _set_interactivity_locates_first env c s d tr out tr' :
  _set_interactivity env c s d tr = (out, tr') ->
  exists new,
    tr' = tr ++ new
    /\ ((exists box r, In (FindElement box, r) new /\ raised r = true) ->
        out = Raise WebDriverException
        /\ forall e, In e new -> exists box, fst e = FindElement box).
Proof.
  intros H. unfold _set_interactivity in H.
  unfold bind at 1, call in H.
  destruct (raised (env tr (FindElement Sel.comment))) eqn:R1.
  { inversion H; subst. eexists. split; [reflexivity |]. intros _.
    split; [reflexivity |]. intros e [<- | []]. now eexists. }
  unfold bind at 1, call in H.
  match type of H with
  | context [raised ?r] => destruct (raised r) eqn:R2
  end.
  { inversion H; subst. eexists. rewrite <- app_assoc.
    split; [reflexivity |]. intros _.
    split; [reflexivity |]. intros e [<- | [<- | []]]; now eexists. }
  unfold bind at 1, call in H.
  match type of H with
  | context [raised ?r] => destruct (raised r) eqn:R3
  end.
  { inversion H; subst. eexists. rewrite <- !app_assoc.
    split; [reflexivity |]. intros _.
    split; [reflexivity |]. intros e [<- | [<- | [<- | []]]]; now eexists. }
  assert (E : emits (fun a => forall x, a <> FindElement x)
                (reconcile env c Sel.comment ;;
                 reconcile env s Sel.stitch ;;
                 reconcile env d Sel.duet)).
  { repeat (apply emits_bind; [apply reconcile_no_lookup | intros _]).
    apply reconcile_no_lookup. }
  destruct (E _ _ _ H) as (new & -> & F). clear H E.
  rewrite <- !app_assoc in *. simpl in *.
  eexists. split; [reflexivity |].
  intros (box & r & I & Rr). exfalso. simpl in I.
  destruct I as [I | [I | [I | I]]];
    try (inversion I; subst; congruence).
  unfold actions in F. rewrite Forall_map, Forall_forall in F.
  apply (F _ I box). reflexivity.
Qed.

Lemma _set_interactivity_locates_first_witness :
  exists new,
    [(FindElement Sel.comment, quiet); (FindElement Sel.stitch, quiet);
     (FindElement Sel.duet, {| raised := true; selected := false |})]
    = [] ++ new
    /\ ((exists box r, In (FindElement box, r) new /\ raised r = true) ->
        @Raise unit WebDriverException = Raise WebDriverException
        /\ forall e, In e new -> exists box, fst e = FindElement box).
Proof.
  apply (_set_interactivity_locates_first Demo.duetless
           (Py.VBool true) (Py.VBool true) (Py.VBool true) []).
  reflexivity.
Defined.

(** *** A failed attachment does not stop the form *)

Lemma attempts_outside_attachment (new : trace) :
  Forall (fun a => stage_of a <> Attachment) (actions new) ->
  attempts new = O.
Proof.
  induction new as [| [a r] new IH]; simpl; intros F; [reflexivity |].
  inversion F as [| ? ? Fa Fr]; subst.
  destruct a; auto. destruct s; auto. now elim Fa.
Qed.

Lemma within_outside {A} g g' (m : M A) :
  g <> g' -> within g m -> emits (fun a => stage_of a <> g') m.
Proof.
  intros N W. eapply emits_weaken; [| exact W].
  intros a E. simpl in E. congruence.
Qed.

Lemma _set_interactivity_starts env c s d tr out tr' :
  _set_interactivity env c s d tr = (out, tr') ->
  exists r rest, tr' = tr ++ (FindElement Sel.comment, r) :: rest.
Proof.
  intros H. unfold _set_interactivity in H. unfold bind at 1, call in H.
  destruct (raised (env tr (FindElement Sel.comment))).
  - inversion H. now eexists _, [].
  - match type of H with
    | ?k ?t = _ => assert (E : emits (fun _ => True) k)
    end.
    { do 2 (apply emits_bind; [apply emits_call; exact I | intros ?]).
      do 2 (apply emits_bind;
            [eapply emits_weaken; [| apply reconcile_no_lookup]; trivial
            | intros ?]).
      eapply emits_weaken; [| apply reconcile_no_lookup]; trivial. }
    destruct (E _ _ _ H) as (more & -> & _).
    rewrite <- app_assoc. now eexists _, more.
Qed.

(** X9: once the upload page is open, [complete_upload_form] makes
    exactly one attachment attempt, and it goes on to look up the
    comment box whether that attempt went through or not. *)
Theorem failed_attachment_does_not_stop_the_form cfg env fuel path
  description tr t1 out tr' :
  _go_to_upload env tr = (Return tt, t1) ->
  complete_upload_form cfg env fuel path description [] [] tr = (out, tr') ->
  exists new,
    tr' = t1 ++ new
    /\ attempts new = 1%nat
    /\ In (FindElement Sel.comment) (actions new).
Proof.
  intros G H. unfold complete_upload_form, call_go_to_upload in H.
  unfold bind at 1 in H. rewrite G in H.
  unfold _set_video in H. change (Z.to_nat 1) with 1%nat in H.
  cbn [retry] in H. unfold bind at 1, try_except in H.
  destruct (attempt env "" t1) as [o t] eqn:A.
  destruct (attempt_outcome _ _ _ _ _ A)
    as (e & -> & A1 & _ & O).
  assert (K : (call_set_interactivity env [] [] ;;
               _set_description cfg env fuel description ;;
               _post_video env) (t1 ++ e) = (out, tr')).
  { destruct O as [(-> & _) | ->]; exact H. }
  clear H O A.
  assert (E : emits (fun a => stage_of a <> Attachment)
                (call_set_interactivity env [] [] ;;
                 _set_description cfg env fuel description ;;
                 _post_video env)).
  { apply emits_bind; [| intros _; apply emits_bind; [| intros _]].
    - apply within_outside with Interactivity;
        [discriminate | apply call_set_interactivity_within].
    - apply within_outside with Description;
        [discriminate | apply _set_description_within].
    - apply within_outside with Submission;
        [discriminate | apply _post_video_within]. }
  destruct (E _ _ _ K) as (new & -> & F).
  exists (e ++ new). rewrite app_assoc. split; [reflexivity |].
  rewrite attempts_app, (attempts_outside_attachment new F).
  split; [lia |].
  rewrite actions_app, in_app_iff. right.
  unfold bind at 1 in K.
  destruct (call_set_interactivity env [] [] (t1 ++ e)) as [o2 t2] eqn:C.
  apply _set_interactivity_starts in C as (r & rest & ->).
  assert (E2 : exists more, (t1 ++ e) ++ new
                            = ((t1 ++ e) ++ (FindElement Sel.comment, r) :: rest)
                              ++ more).
  { destruct o2 as [[] | x |]; try (inversion K; exists []; now rewrite app_nil_r).
    assert (E3 : emits (fun _ => True)
                   (_set_description cfg env fuel description ;;
                    _post_video env)).
    { apply emits_bind; [| intros _];
        (eapply emits_weaken;
         [| first [apply _set_description_within
                  | apply _post_video_within]]; trivial). }
    destruct (E3 _ _ _ K) as (more & E4 & _). now exists more. }
  destruct E2 as (more & E2). rewrite <- !app_assoc in E2.
  do 2 apply app_inv_head in E2. subst new. simpl. now left.
Qed.

Lemma failed_attachment_does_not_stop_the_form_witness :
  exists new,
    snd (complete_upload_form Demo.cfg Demo.unconfirmed 5 "/videos/clip.mp4"
           (Some "@a") [] [] [])
    = snd (_go_to_upload Demo.unconfirmed []) ++ new
    /\ attempts new = 1%nat
    /\ In (FindElement Sel.comment) (actions new).
Proof.
  apply (failed_attachment_does_not_stop_the_form Demo.cfg Demo.unconfirmed 5
           "/videos/clip.mp4" (Some "@a") []
           (snd (_go_to_upload Demo.unconfirmed []))
           (fst (complete_upload_form Demo.cfg Demo.unconfirmed 5
                   "/videos/clip.mp4" (Some "@a") [] [] []))).
  - reflexivity.
  - reflexivity.
Defined.

(** *** The description stage by itself *)

Lemma prepare_field_follows env :
  follows [FindElement Sel.description;
           GetAttributeValue Sel.description;
           WaitValueNonEmpty Sel.description (seconds 10);
           GetAttributeValue Sel.description;
           Clear Sel.description;
           SendKeys Sel.description ControlA;
           SendKeys Sel.description Delete;
           GetAttributeValue Sel.description]
          (prepare_field env) (fun _ => True).
Proof.
  unfold prepare_field, _clear.
  do 4 (match goal with
        | |- follows (?a :: ?t) _ _ =>
            apply (follows_bind [a] t) with (ok1 := fun _ => True);
              [apply follows_call | intros ? _]
        end).
  apply (follows_bind [Clear Sel.description;
                       SendKeys Sel.description ControlA;
                       SendKeys Sel.description Delete]
                      [GetAttributeValue Sel.description])
    with (ok1 := fun _ => True).
  - do 3 (match goal with
          | |- follows (?a :: ?t) _ _ =>
              apply (follows_bind [a] t) with (ok1 := fun _ => True);
                [apply follows_call | intros ? _]
          end).
    apply follows_weaken with (ok := eq tt); [trivial | apply follows_ret].
  - intros _ _.
    apply (follows_bind [GetAttributeValue Sel.description] [])
      with (ok1 := fun _ => True); [apply follows_call | intros ? _].
    apply follows_weaken with (ok := eq tt); [trivial | apply follows_ret].
Qed.

Lemma retype_follows env saved :
  follows [Clear Sel.description; SendKeys Sel.description (Text saved)]
          (retype env saved) (fun _ => True).
Proof.
  unfold retype.
  do 2 (match goal with
        | |- follows (?a :: ?t) _ _ =>
            apply (follows_bind [a] t) with (ok1 := fun _ => True);
              [apply follows_call | intros ? _]
        end).
  apply follows_weaken with (ok := eq tt); [trivial | apply follows_ret].
Qed.



Lemma typing_emits_any cfg env fuel s :
  emits (fun _ => True) (typing cfg env fuel s).
Proof.
  eapply emits_weaken; [| apply (typing_emits cfg env "")]. trivial.
Qed.

(** X10: an exception raised while the description is typed, be it
    [DescriptionTooLong] or a suggestion that never shows up, never
    leaves [_set_description].  The stage raises only when a call of its
    preparation or of its fallback raises; that call is then the last
    one made. *)
Theorem _set_description_raises_only_outside_typing cfg env fuel s tr e tr' :
  _set_description cfg env fuel (Some s) tr = (Raise e, tr') ->
  e = WebDriverException
  /\ exists pre a r,
       tr' = tr ++ pre ++ [(a, r)]
       /\ raised r = true
       /\ In a [FindElement Sel.description;
                GetAttributeValue Sel.description;
                WaitValueNonEmpty Sel.description (seconds 10);
                Clear Sel.description;
                SendKeys Sel.description ControlA;
                SendKeys Sel.description Delete;
                SendKeys Sel.description (Text s)].
Proof.
  intros H. unfold _set_description, bind in H.
  destruct (prepare_field env tr) as [o1 t1] eqn:P.
  destruct (prepare_field_follows env _ _ _ P)
    as (p & -> & [(u & -> & _ & Ap & Rp)
                 | (x & -> & pre & a & r & rest & -> & Rr & -> & _ & Er)]).
  - unfold try_except in H.
    destruct (typing cfg env fuel s (tr ++ p)) as [o2 t2] eqn:T.
    destruct (typing_emits_any _ _ _ _ _ _ _ T) as (n & -> & _).
    destruct o2 as [[] | x |]; try discriminate.
    destruct (retype_follows env s _ _ _ H)
      as (q & -> & [(b & D & _)
                   | (y & D & pre & a & r & rest & -> & Rr & -> & _ & Er)]);
      [discriminate |].
    inversion D; subst e. assert (Ia : In a (actions (pre ++ [(a, r)]) ++ rest))
      by (rewrite actions_app, !in_app_iff; simpl; tauto).
    rewrite <- Er in Ia.
    split; [destruct Ia as [<- | [<- | []]]; reflexivity |].
    exists (p ++ n ++ pre), a, r. rewrite <- !app_assoc.
    split; [reflexivity | split; [exact Rr |]].
    simpl in Ia |- *. tauto.
  - inversion H; subst e tr'.
    assert (Ia : In a (actions (pre ++ [(a, r)]) ++ rest))
      by (rewrite actions_app, !in_app_iff; simpl; tauto).
    rewrite <- Er in Ia.
    split; [simpl in Ia; repeat destruct Ia as [<- | Ia]; try reflexivity;
            contradiction |].
    exists pre, a, r. split; [reflexivity | split; [exact Rr |]].
    simpl in Ia |- *. tauto.
Qed.

Lemma _set_description_raises_only_outside_typing_witness :
  WebDriverException = WebDriverException
  /\ exists pre a r,
       [(FindElement Sel.description,
         {| raised := true; selected := false |})]
       = [] ++ pre ++ [(a, r)]
       /\ raised r = true
       /\ In a [FindElement Sel.description;
                GetAttributeValue Sel.description;
                WaitValueNonEmpty Sel.description (seconds 10);
                Clear Sel.description;
                SendKeys Sel.description ControlA;
                SendKeys Sel.description Delete;
                SendKeys Sel.description (Text "@a")].
Proof.
  apply (_set_description_raises_only_outside_typing Demo.cfg
           (fun _ _ => {| raised := true; selected := false |}) 5 "@a" []).
  reflexivity.
Defined.

Lemma no_clear_existsb box (b : trace) :
  Forall (fun a => is_clear box a = false) (actions b) ->
  existsb (is_clear box) (actions b) = false.
Proof.
  induction b as [| [a r] b IH]; simpl; intros F; [reflexivity |].
  inversion F as [| ? ? Fa Fb]; subst. now rewrite Fa, IH.
Qed.

Lemma after_last_clear_none box (b : trace) :
  existsb (is_clear box) (actions b) = false -> after_last_clear box b = b.
Proof.
  destruct b as [| e b]; simpl; [reflexivity |].
  intros E. apply orb_false_elim in E as [E1 E2]. now rewrite E1, E2.
Qed.

Lemma after_last_clear_app box (a b : trace) r :
  existsb (is_clear box) (actions b) = false ->
  after_last_clear box (a ++ (Clear box, r) :: b) = b.
Proof.
  intros N. induction a as [| e a IH]; simpl.
  - rewrite N. destruct (selector_eq_dec box box); [reflexivity | congruence].
  - rewrite actions_app, existsb_app. simpl.
    destruct (selector_eq_dec box box); [| congruence].
    now rewrite orb_true_r.
Qed.

Lemma typing_loop_no_clear env fuel description :
  emits (fun a => is_clear Sel.description a = false)
        (typing_loop env fuel description).
Proof.
  revert description.
  induction fuel as [| fuel IH]; intros [| c s];
    try solve [apply emits_ret | apply emits_diverge].
  cbn [typing_loop]. destruct (_ || _); emit; apply IH.
Qed.

Lemma text_of_single s : text_of [Text s] = s.
Proof. simpl. induction s; simpl; congruence. Qed.

(** X11: when [_set_description] returns for a description [s], what it
    typed into the field after its last [clear()] of it spells [s],
    whether the tokens went through one by one or the fallback typed the
    saved text. *)
Theorem _set_description_leaves_description_typed cfg env fuel s tr tr' :
  _set_description cfg env fuel (Some s) tr = (Return tt, tr') ->
  exists new,
    tr' = tr ++ new
    /\ text_of (typed Sel.description
                  (after_last_clear Sel.description new)) = s.
Proof.
  intros H. unfold _set_description in H.
  apply bind_return in H as ([] & t1 & P & H).
  assert (Hp : exists r1 r2 r3 r4 r5 r6 r7 r8,
             t1 = tr ++ [(FindElement Sel.description, r1);
                         (GetAttributeValue Sel.description, r2);
                         (WaitValueNonEmpty Sel.description (seconds 10), r3);
                         (GetAttributeValue Sel.description, r4)]
                     ++ (Clear Sel.description, r5)
                        :: [(SendKeys Sel.description ControlA, r6);
                            (SendKeys Sel.description Delete, r7);
                            (GetAttributeValue Sel.description, r8)]).
  { unfold prepare_field, _clear, bind, call, ret in P. simpl in P.
    split_reply env P; inversion P; subst;
      repeat rewrite <- app_assoc; simpl.
    do 8 eexists. reflexivity. }
  destruct Hp as (r1 & r2 & r3 & r4 & r5 & r6 & r7 & r8 & ->). clear P.
  unfold try_except in H.
  match type of H with
  | context [typing cfg env fuel s ?t] =>
      destruct (typing cfg env fuel s t) as [o2 t2] eqn:T
  end.
  destruct o2 as [[] | x |]; [| | discriminate].
  - inversion H; subst t2. clear H. unfold typing in T.
    destruct (_ >? _); [discriminate |].
    destruct (typing_loop_no_clear _ _ _ _ _ _ T) as (n & E & F).
    apply typing_loop_reconstructs in T as (n' & E' & Tn).
    rewrite E' in E. apply app_inv_head in E. subst n'. rewrite E'.
    eexists. rewrite <- !app_assoc. split; [reflexivity |].
    change ([(Clear Sel.description, r5);
             (SendKeys Sel.description ControlA, r6);
             (SendKeys Sel.description Delete, r7);
             (GetAttributeValue Sel.description, r8)] ++ n)
      with ((Clear Sel.description, r5)
            :: [(SendKeys Sel.description ControlA, r6);
                (SendKeys Sel.description Delete, r7);
                (GetAttributeValue Sel.description, r8)] ++ n).
    rewrite (after_last_clear_app Sel.description).
    + rewrite typed_app, text_of_app. simpl. exact Tn.
    + rewrite actions_app, existsb_app. simpl.
      now apply no_clear_existsb.
  - destruct (typing_emits_any _ _ _ _ _ _ _ T) as (n & -> & _).
    destruct (retype_follows env s _ _ _ H)
      as (q & -> & [(b & _ & _ & Aq & _) | (y & D & _)]); [| discriminate].
    destruct q as [| [a1 q1] [| [a2 q2] [| ? ?]]]; try discriminate.
    inversion Aq; subst a1 a2.
    eexists. rewrite <- !app_assoc. split; [reflexivity |].
    match goal with
    | |- context [after_last_clear _ ?l] =>
        replace l
          with (([(FindElement Sel.description, r1);
                  (GetAttributeValue Sel.description, r2);
                  (WaitValueNonEmpty Sel.description (seconds 10), r3);
                  (GetAttributeValue Sel.description, r4);
                  (Clear Sel.description, r5);
                  (SendKeys Sel.description ControlA, r6);
                  (SendKeys Sel.description Delete, r7);
                  (GetAttributeValue Sel.description, r8)] ++ n)
                ++ (Clear Sel.description, q1)
                   :: [(SendKeys Sel.description (Text s), q2)])
          by (simpl; rewrite <- ?app_assoc; reflexivity)
    end.
    rewrite after_last_clear_app by reflexivity.
    apply text_of_single.
Qed.

Lemma _set_description_leaves_description_typed_witness :
  exists new,
    snd (_set_description Demo.cfg Demo.unsuggested 5 (Some "@a") [])
    = [] ++ new
    /\ text_of (typed Sel.description
                  (after_last_clear Sel.description new)) = "@a".
Proof.
  apply (_set_description_leaves_description_typed Demo.cfg Demo.unsuggested
           5 "@a" []).
  reflexivity.
Defined.

(** *** Descriptions the typing loop gets through *)

Lemma ends_in_trigger_tail a s :
  ends_in_trigger (String a s) = true ->
  s = EmptyString \/ ends_in_trigger s = true.
Proof. destruct s; [now left | now right]. Qed.

Lemma ends_in_trigger_drop n s :
  s = EmptyString \/ ends_in_trigger s = true ->
  Py.drop n s = EmptyString \/ ends_in_trigger (Py.drop n s) = true.
Proof.
  revert s. induction n as [| n IH]; intros s H; [exact H |].
  destruct s as [| a s]; [now left |]. simpl Py.drop.
  apply IH. destruct H as [H | H]; [discriminate |].
  now apply ends_in_trigger_tail in H.
Qed.

Lemma find_nonzero_head a s c : Py.find (String a s) c <> 0 -> a <> c.
Proof.
  simpl. intros N ->. now rewrite Ascii.eqb_refl in N.
Qed.

(** With no trigger in front, the loop keeps a proper suffix of a text
    of two characters or more. *)
Lemma literal_rest_is_suffix a b s :
  Py.find (String a (String b s)) "@" <> 0 ->
  Py.find (String a (String b s)) "#" <> 0 ->
  exists k,
    Py.slice_from (Z.min (Py.find (String a (String b s)) "@")
                         (Py.find (String a (String b s)) "#"))
                  (String a (String b s))
    = Py.drop k (String b s).
Proof.
  intros M H. set (t := String a (String b s)) in *.
  set (m := Z.min (Py.find t "@") (Py.find t "#")).
  assert (Hm : m = -1 \/ 1 <= m).
  { destruct (find_range t "@"), (find_range t "#"); unfold m; lia. }
  assert (L : Py.len t = Z.of_nat (S (S (String.length s)))) by reflexivity.
  clearbody m.
  unfold Py.slice_from, Py.bound.
  generalize dependent (Py.len t). intros len L.
  assert (exists k, Z.to_nat (Z.min len
                                    (if m <? 0 then Z.max 0 (len + m)
                                     else m)) = S k) as (k & ->).
  { destruct Hm as [-> | Hm].
    - change (-1 <? 0) with true. cbv iota.
      exists (S (String.length s) - 1)%nat. lia.
    - destruct (m <? 0) eqn:G; [lia |].
      exists (Z.to_nat (Z.min len m) - 1)%nat. lia. }
  now exists k.
Qed.

Lemma typing_loop_returns (env : oracle) fuel :
  obliging env ->
  forall s tr,
    s = EmptyString \/ ends_in_trigger s = true ->
    (String.length s <= fuel)%nat ->
    exists tr', typing_loop env fuel s tr = (Return tt, tr').
Proof.
  intros Henv. induction fuel as [| fuel IH]; intros s tr E L.
  - destruct s; [now eexists | simpl in L; lia].
  - destruct s as [| a s]; [now eexists |].
    destruct E as [E | E]; [discriminate |].
    cbn [typing_loop].
    destruct ((Py.find (String a s) "@" =? 0)
              || (Py.find (String a s) "#" =? 0)) eqn:T.
    + unfold bind, call, sleep. rewrite !Henv.
      replace (Py.slice_from 1 (String a s)) with s
        by (symmetry; apply (slice_from_succ a s 0); lia).
      unfold Py.len. rewrite slice_from_succ by apply first_split_length.
      apply IH.
      * apply ends_in_trigger_drop. now apply ends_in_trigger_tail in E.
      * rewrite length_drop. simpl in L. lia.
    + apply orb_false_elim in T as [M H].
      apply Z.eqb_neq in M, H.
      destruct s as [| b s].
      { apply find_nonzero_head in M, H. simpl in E.
        apply orb_true_iff in E as [E | E]; apply Ascii.eqb_eq in E;
          congruence. }
      destruct (literal_rest_is_suffix a b s M H) as (k & ->).
      unfold bind, call. rewrite Henv.
      apply IH.
      * apply ends_in_trigger_drop. right. exact E.
      * rewrite length_drop. simpl in L.
        change (String.length (String b s)) with (S (String.length s)). lia.
Qed.

(** X12: a description whose last character is [@] or [#] is typed to
    the end: if no call raises, the loop returns within as many passes
    as the description has characters, and the texts it typed add up to
    the description. *)
Theorem typing_loop_ends_on_trailing_trigger (env : oracle) fuel s tr :
  obliging env ->
  ends_in_trigger s = true ->
  (String.length s <= fuel)%nat ->
  exists new,
    typing_loop env fuel s tr = (Return tt, tr ++ new)
    /\ text_of (typed Sel.description new) = s.
Proof.
  intros Henv E L.
  destruct (typing_loop_returns env fuel Henv s tr (or_intror E) L)
    as (tr' & H).
  destruct (typing_loop_reconstructs _ _ _ _ _ H) as (new & -> & T).
  now exists new.
Qed.

Lemma typing_loop_ends_on_trailing_trigger_witness :
  exists new,
    typing_loop Demo.smooth 7 "hi @bo#" [] = (Return tt, [] ++ new)
    /\ text_of (typed Sel.description new) = "hi @bo#".
Proof.
  apply (typing_loop_ends_on_trailing_trigger Demo.smooth 7 "hi @bo#" []).
  - intros tr a. reflexivity.
  - reflexivity.
  - simpl. lia.
Defined.

(** *** The path check *)

Lemma split_nonempty c s : Py.split c s <> [].
Proof.
  destruct s as [| a s]; simpl; [discriminate |].
  destruct (Ascii.eqb a c); [discriminate |].
  destruct (Py.split c s); discriminate.
Qed.

Lemma last_cons_nonempty (x : string) l :
  l <> [] -> Py.last (x :: l) = Py.last l.
Proof. destruct l; [congruence | reflexivity]. Qed.

Lemma split_without_separator c s :
  Py.find s c = -1 -> Py.split c s = [s].
Proof.
  induction s as [| a s IH]; intros F; [reflexivity |].
  assert (Fs := find_absent_tail _ _ _ F).
  simpl in F |- *. destruct (Ascii.eqb a c); [discriminate |].
  now rewrite (IH Fs).
Qed.

Lemma last_split_after_separator c stem rest :
  Py.last (Py.split c (stem ++ String c rest)) = Py.last (Py.split c rest).
Proof.
  induction stem as [| a stem IH]; simpl.
  - rewrite Ascii.eqb_refl.
    apply last_cons_nonempty, split_nonempty.
  - destruct (Ascii.eqb a c).
    + rewrite last_cons_nonempty by apply split_nonempty. exact IH.
    + destruct (Py.split c (stem ++ String c rest)) as [| w ws] eqn:E.
      * now apply split_nonempty in E.
      * rewrite <- IH. destruct ws; [| reflexivity].
        simpl in IH |- *.
        exfalso. clear IH.
        assert (L : (2 <= List.length (Py.split c (stem ++ String c rest)))%nat).
        { clear E. induction stem as [| b stem IHs]; simpl.
          - rewrite Ascii.eqb_refl. simpl.
            destruct (Py.split c rest) eqn:N;
              [now apply split_nonempty in N | simpl; lia].
          - destruct (Ascii.eqb b c); simpl.
            + lia.
            + destruct (Py.split c (stem ++ String c rest)); simpl in *; lia. }
        rewrite E in L. simpl in L. lia.
Qed.

(** X13: the extension [_check_valid_path] looks at is what follows the
    last dot of the path: a path [stem.ext] whose [ext] has no dot is
    accepted exactly when the file exists and [ext], as written, is one
    of the supported file types. *)
Theorem _check_valid_path_extension cfg os stem ext :
  Py.find ext "." = -1 ->
  _check_valid_path cfg os (stem ++ "." ++ ext)
  = exists_ os (stem ++ "." ++ ext)
    && Py.mem ext (supported_file_types cfg).
Proof.
  intros F. unfold _check_valid_path. f_equal. f_equal.
  change ("." ++ ext)%string with (String "." ext).
  rewrite last_split_after_separator.
  now rewrite split_without_separator.
Qed.

Lemma _check_valid_path_extension_witness :
  _check_valid_path Demo.cfg Demo.os ("/videos/clip" ++ "." ++ "mp4")
  = exists_ Demo.os ("/videos/clip" ++ "." ++ "mp4")
    && Py.mem "mp4" (supported_file_types Demo.cfg).
Proof.
  apply _check_valid_path_extension. reflexivity.
Defined.

(** X14: a path without any dot is its own extension: it is accepted
    exactly when the file exists and the whole path is one of the
    supported file types. *)
Theorem _check_valid_path_without_dot cfg os path :
  Py.find path "." = -1 ->
  _check_valid_path cfg os path
  = exists_ os path && Py.mem path (supported_file_types cfg).
Proof.
  intros F. unfold _check_valid_path.
  now rewrite split_without_separator.
Qed.

Lemma _check_valid_path_without_dot_witness :
  _check_valid_path Demo.cfg Demo.os "mp4"
  = exists_ Demo.os "mp4" && Py.mem "mp4" (supported_file_types Demo.cfg).
Proof.
  apply _check_valid_path_without_dot. reflexivity.
Defined.

(** *** The navigation and the submission *)

(** X15: [_go_to_upload] opens the upload page, waits for the iframe,
    switches to it and waits for the root element, in this order.  It
    stops at the first of these calls that raises, with the exception of
    that call, and returns exactly when all four returned: it never
    switches to a frame it did not find. *)
Theorem _go_to_upload_follows env :
  follows [Navigate;
           WaitPresent Sel.iframe explicit_wait;
           SwitchToFrame;
           WaitPresent Sel.root explicit_wait]
          (_go_to_upload env) (fun _ => True).
Proof.
  unfold _go_to_upload.
  do 4 (match goal with
        | |- follows (?a :: ?t) _ _ =>
            apply (follows_bind [a] t) with (ok1 := fun _ => True);
              [apply follows_call | intros ? _]
        end).
  apply follows_weaken with (ok := eq tt); [trivial | apply follows_ret].
Qed.

(** X16: [_post_video] locates the post button, clicks it and waits for
    the confirmation, in this order.  It stops at the first of these
    calls that raises, with the exception of that call, and returns
    exactly when all three returned: it never clicks a button it did not
    find, and it never returns before the confirmation showed up. *)
Theorem _post_video_follows env :
  follows [FindElement Sel.post;
           Click Sel.post;
           WaitPresent Sel.post_confirmation explicit_wait]
          (_post_video env) (fun _ => True).
Proof.
  unfold _post_video.
  do 3 (match goal with
        | |- follows (?a :: ?t) _ _ =>
            apply (follows_bind [a] t) with (ok1 := fun _ => True);
              [apply follows_call | intros ? _]
        end).
  apply follows_weaken with (ok := eq tt); [trivial | apply follows_ret].
Qed.

(** *** More on the typing loop *)

(** X17: a non-empty description without [@] and [#] that is not too
    long makes the description stage hang: when no call raises, the
    stage neither returns nor raises, however many passes the loop is
    given. *)
Theorem _set_description_hangs_on_plain_text cfg (env : oracle) fuel s tr :
  obliging env ->
  s <> EmptyString ->
  Py.find s "@" = -1 -> Py.find s "#" = -1 ->
  Py.len s <= max_description_length cfg ->
  fst (_set_description cfg env fuel (Some s) tr) = Diverge.
Proof.
  intros Henv N M H L.
  unfold _set_description, bind, try_except, typing.
  destruct (Py.len s >? max_description_length cfg) eqn:G; [lia |].
  destruct (prepare_field env tr) as [o t] eqn:P.
  assert (o = Return tt) as ->.
  { unfold prepare_field, _clear, bind, call, ret in P.
    rewrite !Henv in P. now inversion P. }
  assert (D := plain_text_never_ends env fuel (fun tr k => Henv tr _)
                 s t N M H).
  destruct (typing_loop env fuel s t) as [o2 t2]. simpl in D. now subst o2.
Qed.

Lemma _set_description_hangs_on_plain_text_witness :
  fst (_set_description Demo.cfg Demo.smooth 5 (Some "nice day") [])
  = Diverge.
Proof.
  apply _set_description_hangs_on_plain_text.
  - intros tr a. reflexivity.
  - discriminate.
  - reflexivity.
  - reflexivity.
  - simpl. unfold Py.len. simpl. lia.
Defined.

Lemma find_below_len s c : Py.find s c < Py.len s.
Proof.
  unfold Py.len. induction s as [| a s IH]; simpl String.length.
  - simpl. lia.
  - simpl Py.find. destruct (Ascii.eqb a c); [lia |].
    destruct (Py.find s c <? 0) eqn:G; lia.
Qed.

Lemma find_step a s c :
  1 <= Py.find (String a s) c ->
  Py.find (String a s) c = Py.find s c + 1 /\ 0 <= Py.find s c.
Proof.
  simpl. destruct (Ascii.eqb a c); [lia |].
  destruct (Py.find s c <? 0) eqn:G; lia.
Qed.

Lemma find_take n s c :
  Z.of_nat n <= Py.find s c -> Py.find (Py.take n s) c = -1.
Proof.
  revert s. induction n as [| n IH]; intros s L; [reflexivity |].
  destruct s as [| a s]; [reflexivity |].
  destruct (find_step a s c) as (E & G); [lia |].
  simpl Py.take. simpl Py.find.
  destruct (Ascii.eqb a c) eqn:Q.
  { simpl in E. rewrite Q in E. lia. }
  rewrite IH by lia. reflexivity.
Qed.

Lemma find_drop n s c :
  Z.of_nat n <= Py.find s c ->
  Py.find (Py.drop n s) c = Py.find s c - Z.of_nat n.
Proof.
  revert s. induction n as [| n IH]; intros s L; [simpl; lia |].
  destruct s as [| a s]; [simpl in L; lia |].
  destruct (find_step a s c) as (E & G); [lia |].
  simpl Py.drop. rewrite IH by lia. lia.
Qed.

(** X18: when both an [@] and a [#] occur in the text and neither is in
    front, one pass of the loop types the text before the nearer of the
    two, which is not empty and holds no trigger, and goes on with the
    rest, which starts with that trigger. *)
Theorem literal_run_stops_at_nearer_trigger env fuel s tr :
  1 <= Py.find s "@" -> 1 <= Py.find s "#" ->
  typing_loop env (S fuel) s tr
  = (call env (SendKeys Sel.description
                 (Text (Py.slice_to
                          (Z.min (Py.find s "@") (Py.find s "#")) s))) ;;
     typing_loop env fuel
       (Py.slice_from (Z.min (Py.find s "@") (Py.find s "#")) s)) tr
  /\ Py.slice_to (Z.min (Py.find s "@") (Py.find s "#")) s <> EmptyString
  /\ Py.find (Py.slice_to (Z.min (Py.find s "@") (Py.find s "#")) s) "@" = -1
  /\ Py.find (Py.slice_to (Z.min (Py.find s "@") (Py.find s "#")) s) "#" = -1
  /\ (Py.find (Py.slice_from (Z.min (Py.find s "@") (Py.find s "#")) s) "@" = 0
      \/ Py.find (Py.slice_from (Z.min (Py.find s "@") (Py.find s "#")) s) "#"
         = 0).
Proof.
  intros M H.
  assert (N : s <> EmptyString) by (intros ->; simpl in M; lia).
  split; [rewrite typing_loop_literal by (trivial; lia); reflexivity |].
  set (m := Z.min (Py.find s "@") (Py.find s "#")).
  assert (Hm : 1 <= m /\ m <= Py.find s "@" /\ m <= Py.find s "#"
               /\ (m = Py.find s "@" \/ m = Py.find s "#"))
    by (unfold m; lia).
  assert (B : Py.bound m s = Z.to_nat m).
  { unfold Py.bound. destruct (m <? 0) eqn:G; [lia |].
    pose proof (find_below_len s "@"). lia. }
  unfold Py.slice_to, Py.slice_from. rewrite B.
  destruct Hm as (H1 & H2 & H3 & H4).
  split; [| split; [| split]].
  - destruct s as [| a s]; [congruence |].
    destruct (Z.to_nat m) eqn:Z0; [lia | discriminate].
  - apply find_take. lia.
  - apply find_take. lia.
  - rewrite !find_drop by lia. lia.
Qed.

Lemma literal_run_stops_at_nearer_trigger_witness :
  typing_loop Demo.smooth 3 "hi @bob #fun" []
  = (call Demo.smooth
       (SendKeys Sel.description
          (Text (Py.slice_to
                   (Z.min (Py.find "hi @bob #fun" "@")
                          (Py.find "hi @bob #fun" "#"))
                   "hi @bob #fun"))) ;;
     typing_loop Demo.smooth 2
       (Py.slice_from (Z.min (Py.find "hi @bob #fun" "@")
                             (Py.find "hi @bob #fun" "#"))
                      "hi @bob #fun")) []
  /\ Py.slice_to (Z.min (Py.find "hi @bob #fun" "@")
                        (Py.find "hi @bob #fun" "#")) "hi @bob #fun"
     <> EmptyString
  /\ Py.find (Py.slice_to (Z.min (Py.find "hi @bob #fun" "@")
                                 (Py.find "hi @bob #fun" "#"))
                          "hi @bob #fun") "@" = -1
  /\ Py.find (Py.slice_to (Z.min (Py.find "hi @bob #fun" "@")
                                 (Py.find "hi @bob #fun" "#"))
                          "hi @bob #fun") "#" = -1
  /\ (Py.find (Py.slice_from (Z.min (Py.find "hi @bob #fun" "@")
                                    (Py.find "hi @bob #fun" "#"))
                             "hi @bob #fun") "@" = 0
      \/ Py.find (Py.slice_from (Z.min (Py.find "hi @bob #fun" "@")
                                       (Py.find "hi @bob #fun" "#"))
                                "hi @bob #fun") "#" = 0).
Proof.
  apply (literal_run_stops_at_nearer_trigger Demo.smooth 2 "hi @bob #fun" []).
  - simpl. lia.
  - simpl. lia.
Defined.
